(** * route1: answer verification, attempt throttling and progress upserts

    A shallow embedding of [api/src/server.js] (the current revision, the
    first one in the file) together with the tables of [api/sql/migrate.sql]
    it reads and writes.

    - JavaScript strings are sequences of UTF-16 code units ([list N]).
    - Promise rejection and [throw] are the [Thrown] outcome of a small
      error monad.
    - Library primitives whose code is not part of the repository
      ([String.prototype.toLowerCase], [crypto.scrypt],
      [Buffer.from(_, 'hex')], the uuid input parser of Postgres) are the
      fields of the [Runtime] class; every theorem holds for every runtime.
    - Redis and Postgres are explicit state: a key/value store with
      expiry times, and the [stops], [runs] and [progress] tables. *)

From Stdlib Require Import ssreflect.
From stdpp Require Import gmap list strings pretty.
From Stdlib Require Import ZArith Lia.
From Stdlib Require Ascii String.

#[local] Set Warnings "-rewrite-rw,-clear-no-such-hyp,-register-all".

Local Open Scope N_scope.

(** ** JavaScript strings *)

Abbreviation code_unit := N (only parsing).
Abbreviation jsstring := (list N) (only parsing).

(** String literals of the source, as code units. *)
Definition js (s : string) : jsstring :=
  Ascii.N_of_ascii <$> String.list_ascii_of_string s.

(** ECMAScript [WhiteSpace] and [LineTerminator] code points: the set that
    both [String.prototype.trim] and the regular expression class [\s] use. *)
Definition isWhiteSpace (c : code_unit) : bool :=
  ((9 <=? c) && (c <=? 13))
  || (c =? 32) || (c =? 160) || (c =? 5760)
  || ((8192 <=? c) && (c <=? 8202))
  || (c =? 8232) || (c =? 8233) || (c =? 8239) || (c =? 8287)
  || (c =? 12288) || (c =? 65279).

Fixpoint trimStart (s : jsstring) : jsstring :=
  match s with
  | [] => []
  | c :: r => if isWhiteSpace c then trimStart r else s
  end.

Definition trimEnd (s : jsstring) : jsstring :=
  reverse (trimStart (reverse s)).

(** [s.trim()] *)
Definition trim (s : jsstring) : jsstring := trimEnd (trimStart s).

(** [s.replace(/\s+/g, ' ')]: the scan emits one space where a match of
    [\s+] starts and skips the remaining code units of that (greedy) match;
    [in_match] tells whether the previous code unit belonged to a match. *)
Fixpoint replace_ws_from (in_match : bool) (s : jsstring) : jsstring :=
  match s with
  | [] => []
  | c :: r =>
      if isWhiteSpace c
      then (if in_match then replace_ws_from true r
            else 32 :: replace_ws_from true r)
      else c :: replace_ws_from false r
  end.

Definition replace_ws (s : jsstring) : jsstring := replace_ws_from false s.

(** [s.startsWith(p)] *)
Fixpoint startsWith (p s : jsstring) : bool :=
  match p, s with
  | [], _ => true
  | _ :: _, [] => false
  | a :: p', b :: s' => (a =? b) && startsWith p' s'
  end.

(** [s.split(':')]: the pieces between the separators, at least one. *)
Fixpoint split (sep : code_unit) (s : jsstring) : list jsstring :=
  match s with
  | [] => [[]]
  | c :: r =>
      if c =? sep then [] :: split sep r
      else match split sep r with
           | [] => [[c]]
           | p :: ps => (c :: p) :: ps
           end
  end.

(** ASCII case folding, the part of [toLowerCase] every runtime agrees on. *)
Definition ascii_lower (c : code_unit) : code_unit :=
  if (65 <=? c) && (c <=? 90) then c + 32 else c.

Definition is_ascii (s : jsstring) : Prop := Forall (λ c, c < 128) s.

(** ** Outcomes of calls that may throw *)

Inductive exn : Type :=
  | TypeError      (* a built-in rejected its argument *)
  | KdfError       (* [crypto.scrypt] called back with [err] *)
  | RedisError     (* a Redis command was rejected *)
  | PgError.       (* [pool.query] was rejected *)

Inductive outcome (A : Type) : Type :=
  | Returned (a : A)
  | Thrown (e : exn).
Arguments Returned {A} a.
Arguments Thrown {A} e.

#[global] Instance outcome_ret : MRet outcome := λ A a, Returned a.
#[global] Instance outcome_bind : MBind outcome := λ A B k m,
  match m with
  | Returned a => k a
  | Thrown e => Thrown e
  end.

(** ** The runtime the server code calls into *)

Abbreviation uuid := N (only parsing).
Abbreviation buffer := (list N) (only parsing).

Class Runtime := {
  (** [String.prototype.toLowerCase] (Unicode aware, context sensitive). *)
  toLowerCase : jsstring → jsstring;
  (** [crypto.scrypt(password, salt, keylen, cb)] with default cost
      parameters: the derived key, or the error passed to the callback. *)
  scrypt : jsstring → jsstring → nat → outcome buffer;
  (** [Buffer.from(s, 'hex')] *)
  Buffer_from_hex : jsstring → buffer;
  (** The uuid input conversion of Postgres, applied to a text parameter
      that is compared with or stored into a [UUID] column. *)
  parse_uuid : jsstring → option uuid;
}.

(** What the examples of the specification rely on: on ASCII strings
    [toLowerCase] maps [A]..[Z] to [a]..[z] and leaves the rest alone. *)
Definition lowercases_ascii (R : Runtime) : Prop :=
  ∀ s, is_ascii s → toLowerCase s = ascii_lower <$> s.

Section Verifier.
Context {R : Runtime}.

(** [normalizeAnswer(s)]: [String(s || '').trim().toLowerCase()
    .replace(/\s+/g, ' ')]; [None] is an absent ([undefined] or [null])
    answer. *)
Definition normalizeAnswer (s : option jsstring) : jsstring :=
  replace_ws (toLowerCase (trim (default [] s))).

(** [buf.equals(key)] on the decoded digest. *)
Definition Buffer_equals (a b : buffer) : bool := bool_decide (a = b).

(** [verifyAnswer(stored, input)]; [stored = None] is a [null] or
    [undefined] credential. *)
Definition verifyAnswer (stored input : option jsstring) : outcome bool :=
  match stored with
  | None | Some [] => Returned false
  | Some stored =>
      if startsWith (js "plain:") stored then
        Returned (bool_decide (drop 6 stored = normalizeAnswer input))
      else if startsWith (js "scrypt:") stored then
        let parts := split 58 stored in
        match parts !! 1%nat with
        | None => Thrown TypeError
        | Some salt =>
            key ← scrypt (normalizeAnswer input) salt 32;
            match parts !! 2%nat with
            | None => Thrown TypeError
            | Some hex => Returned (Buffer_equals (Buffer_from_hex hex) key)
            end
        end
      else Returned (bool_decide (stored = normalizeAnswer input))
  end.
End Verifier.

(** ** Redis: counters with an expiry time *)

Record RedisEntry := { e_value : Z; e_expire_at : option Z }.

Abbreviation keyspace := (gmap (list N) RedisEntry) (only parsing).

(** Counters are signed 64-bit integers: [INCR] fails on [2^63 - 1]. *)
Definition INT64_MAX : Z := 9223372036854775807.

(** Times are in milliseconds.  A key is visible as long as it carries no
    expiry time or the clock has not passed it (Redis drops a key once
    [now > when]). *)
Definition redis_live (now : Z) (k : jsstring) (db : keyspace)
  : option RedisEntry :=
  match db !! k with
  | Some e =>
      match e_expire_at e with
      | Some t => if (t <? now)%Z then None else Some e
      | None => Some e
      end
  | None => None
  end.

(** [redis.incr(key)]: [up] tells whether the command reaches the server
    (otherwise the client rejects the promise and nothing is stored).  A
    missing key counts from 0 and is created without expiry time. *)
Definition redis_incr (up : bool) (now : Z) (k : jsstring) (db : keyspace)
  : outcome (Z * keyspace) :=
  if negb up then Thrown RedisError
  else match redis_live now k db with
       | None =>
           Returned (1%Z, <[k := {| e_value := 1; e_expire_at := None |}]> db)
       | Some e =>
           if (INT64_MAX <=? e_value e)%Z then Thrown RedisError
           else Returned ((e_value e + 1)%Z,
                          <[k := {| e_value := e_value e + 1;
                                    e_expire_at := e_expire_at e |}]> db)
       end.

(** [redis.expire(key, seconds)] for a positive number of seconds: replies 1
    when the key exists, 0 otherwise. *)
Definition redis_expire (up : bool) (now : Z) (k : jsstring) (seconds : Z)
    (db : keyspace) : outcome (Z * keyspace) :=
  if negb up then Thrown RedisError
  else match redis_live now k db with
       | None => Returned (0%Z, db)
       | Some e =>
           Returned (1%Z, <[k := {| e_value := e_value e;
                                    e_expire_at :=
                                      Some (now + 1000 * seconds)%Z |}]> db)
       end.

(** ** Postgres: the tables of [migrate.sql] the two handlers touch *)

(** [stops]: the columns the handlers select. *)
Record StopRow := {
  answer_hash : jsstring;               (* TEXT NOT NULL *)
  hint_markdown : option jsstring;      (* TEXT *)
  hint_penalty : option Z;              (* INT DEFAULT 10 *)
}.

(** [runs]: the column the upserts select. *)
Record RunRow := {
  run_team_id : option uuid;            (* UUID REFERENCES teams(id) *)
}.

(** [progress]: [team_id] is copied from [runs.team_id] and may be NULL;
    [stop_id] and [used_hint] are never written as NULL by the server.  The
    surrogate key [id] is not read by any statement and left out. *)
Record ProgressRow := {
  team_id : option uuid;
  stop_id : uuid;
  solved_at : option Z;
  used_hint : bool;
}.

Definition set_solved_at (t : option Z) (r : ProgressRow) : ProgressRow :=
  {| team_id := team_id r; stop_id := stop_id r;
     solved_at := t; used_hint := used_hint r |}.

Definition set_used_hint (b : bool) (r : ProgressRow) : ProgressRow :=
  {| team_id := team_id r; stop_id := stop_id r;
     solved_at := solved_at r; used_hint := b |}.

(** [UNIQUE(team_id, stop_id)]: a proposed row collides with an existing one
    when both columns are equal; NULL is equal to nothing, itself included. *)
Definition conflicts (cand r : ProgressRow) : bool :=
  match team_id cand, team_id r with
  | Some t, Some t' => (t =? t') && (stop_id cand =? stop_id r)
  | _, _ => false
  end.

(** [INSERT ... ON CONFLICT (team_id, stop_id) DO UPDATE SET ...] for one
    proposed row. *)
Definition insert_on_conflict (cand : ProgressRow)
    (do_update : ProgressRow → ProgressRow) (tbl : list ProgressRow)
  : list ProgressRow :=
  if existsb (conflicts cand) tbl
  then (λ r, if conflicts cand r then do_update r else r) <$> tbl
  else tbl ++ [cand].

(** The statement as Postgres runs it: a row that is inserted must
    reference an existing stop ([stop_id UUID REFERENCES stops(id)]), or the
    statement fails and nothing is written.  [team_id] comes from a Run row,
    whose own foreign key makes the team exist. *)
Definition insert_checked (stops : gmap N StopRow) (cand : ProgressRow)
    (do_update : ProgressRow → ProgressRow) (tbl : list ProgressRow)
  : outcome (list ProgressRow) :=
  if negb (existsb (conflicts cand) tbl)
     && negb (bool_decide (is_Some (stops !! stop_id cand)))
  then Thrown PgError
  else Returned (insert_on_conflict cand do_update tbl).

(** Of the ways a query can fail, the model has the two the statements
    themselves can cause: a parameter that is not a uuid, and a violated
    foreign key.  A lost connection to Postgres is not modelled. *)
Section Database.
Context {R : Runtime}.

(** [SELECT ... FROM stops WHERE id=$1]: [rows[0]], if any. *)
Definition select_stop (stopId : jsstring) (stops : gmap N StopRow)
  : outcome (option StopRow) :=
  match parse_uuid stopId with
  | None => Thrown PgError
  | Some s => Returned (stops !! s)
  end.

(** The rows of [SELECT team_id, $1, ... FROM runs WHERE id=$2]: [id] is
    the primary key, so there is at most one. *)
Definition select_run (runId : jsstring) (runs : gmap N RunRow)
  : outcome (option RunRow) :=
  match parse_uuid runId with
  | None => Thrown PgError
  | Some r => Returned (runs !! r)
  end.

(** [INSERT INTO progress(team_id, stop_id, solved_at)
     SELECT team_id, $1, now() FROM runs WHERE id=$2
     ON CONFLICT (team_id, stop_id)
     DO UPDATE SET solved_at=excluded.solved_at] *)
Definition upsert_solved (stopId runId : jsstring) (now : Z)
    (stops : gmap N StopRow) (runs : gmap N RunRow) (tbl : list ProgressRow)
  : outcome (list ProgressRow) :=
  match parse_uuid stopId with
  | None => Thrown PgError
  | Some s =>
      run ← select_run runId runs;
      match run with
      | None => Returned tbl
      | Some run =>
          insert_checked stops
            {| team_id := run_team_id run; stop_id := s;
               solved_at := Some now; used_hint := false |}
            (set_solved_at (Some now)) tbl
      end
  end.

(** [INSERT INTO progress(team_id, stop_id, used_hint)
     SELECT team_id, $1, true FROM runs WHERE id=$2
     ON CONFLICT (team_id, stop_id) DO UPDATE SET used_hint=true] *)
Definition upsert_hint (stopId runId : jsstring)
    (stops : gmap N StopRow) (runs : gmap N RunRow) (tbl : list ProgressRow)
  : outcome (list ProgressRow) :=
  match parse_uuid stopId with
  | None => Thrown PgError
  | Some s =>
      run ← select_run runId runs;
      match run with
      | None => Returned tbl
      | Some run =>
          insert_checked stops
            {| team_id := run_team_id run; stop_id := s;
               solved_at := None; used_hint := true |}
            (set_used_hint true) tbl
      end
  end.
End Database.

(** ** The server *)

Inductive log_entry : Type :=
  | LogWarn (msg : jsstring) (err : option exn)
  | LogError (e : exn).

(** [redis] is [None] when [REDIS_URL] is not set ([let redis = null]).  One
    clock, in milliseconds, serves the expiry times of Redis and [now()] of
    Postgres. *)
Record World := {
  redis : option keyspace;
  stops : gmap N StopRow;
  runs : gmap N RunRow;
  progress : list ProgressRow;
  clock : Z;
  log : list log_entry;
}.

Definition with_redis (db : option keyspace) (w : World) : World :=
  {| redis := db; stops := stops w; runs := runs w;
     progress := progress w; clock := clock w; log := log w |}.

Definition with_progress (tbl : list ProgressRow) (w : World) : World :=
  {| redis := redis w; stops := stops w; runs := runs w;
     progress := tbl; clock := clock w; log := log w |}.

Definition with_log (l : list log_entry) (w : World) : World :=
  {| redis := redis w; stops := stops w; runs := runs w;
     progress := progress w; clock := clock w; log := l |}.

Definition add_log (e : log_entry) (w : World) : World :=
  with_log (log w ++ [e]) w.

(** Time passing between two requests. *)
Definition tick (d : Z) (w : World) : World :=
  {| redis := redis w; stops := stops w; runs := runs w;
     progress := progress w; clock := (clock w + d)%Z; log := log w |}.

(** Module initialisation, [if (REDIS_URL) { redis = new Redis(REDIS_URL) }
    else { app.log.warn(...) }]: [server] is the key space of the Redis
    server the URL names. *)
Definition connect_redis (REDIS_URL : jsstring) (server : keyspace)
    (w : World) : World :=
  match REDIS_URL with
  | [] => add_log (LogWarn (js "REDIS_URL niet gezet " ++ [8212]
                            ++ js " rate limiting is uit.") None)
                  (with_redis None w)
  | _ :: _ => with_redis (Some server) w
  end.

Inductive reply_body : Type :=
  | ErrorBody (error : jsstring)
  | CorrectBody (correct : bool)
  | HintBody (hint : option jsstring) (penalty : option Z).

Record Reply := { status : nat; body : reply_body }.

(** The deserialised request body ([req.body || {}]); a field that is
    missing, [null] or [undefined] is [None], any other field is a string
    (numbers, booleans and objects in the body are not modelled). *)
Record AnswerRequest := {
  runId : option jsstring;
  stopId : option jsstring;
  answer : option jsstring;
}.

(** Which Redis commands of a request reach the server. *)
Record Net := { incr_up : bool; expire_up : bool }.

(** [!v] for a value that is a string or absent. *)
Definition falsy (v : option jsstring) : bool :=
  match v with
  | Some (_ :: _) => false
  | _ => true
  end.

(** [`rl:${runId}:${stopId}`] *)
Definition rl_key (runId stopId : jsstring) : jsstring :=
  js "rl:" ++ runId ++ js ":" ++ stopId.

(** The body of [if (redis) { try { ... } catch (e) { ... } }]: whether the
    handler returns 429, the key space afterwards, and what is logged. *)
Definition rate_limit (net : Net) (now : Z) (runId stopId : jsstring)
    (db : keyspace) : bool * keyspace * list log_entry :=
  let key := rl_key runId stopId in
  let skip e := [LogWarn (js "Rate-limit skip (Redis issue)") (Some e)] in
  match redis_incr (incr_up net) now key db with
  | Thrown e => (false, db, skip e)
  | Returned (tries, db1) =>
      let expired :=
        if (tries =? 1)%Z then redis_expire (expire_up net) now key 30 db1
        else Returned (0%Z, db1) in
      match expired with
      | Thrown e => (false, db1, skip e)
      | Returned (_, db2) => ((25 <? tries)%Z, db2, [])
      end
  end.

(** [if (redis) { ... }]: without a client the block is skipped. *)
Definition throttle (net : Net) (runId stopId : jsstring) (w : World)
  : bool * World :=
  match redis w with
  | None => (false, w)
  | Some db =>
      let '(limited, db', warnings) :=
        rate_limit net (clock w) runId stopId db in
      (limited, with_log (log w ++ warnings) (with_redis (Some db') w))
  end.

(** [app.setErrorHandler]: a rejected handler is logged and answered 500
    (the [detail] field, present outside production only, is left out). *)
Definition error_handler (e : exn) (w : World) : Reply * World :=
  ({| status := 500; body := ErrorBody (js "Internal Server Error") |},
   add_log (LogError e) w).

Section Handlers.
Context {R : Runtime}.

(** The handler of [POST /api/stops/answer] after the rate limit. *)
Definition check_answer (runId stopId : jsstring) (answer : option jsstring)
    (w : World) : outcome (Reply * World) :=
  st ← select_stop stopId (stops w);
  match st with
  | None =>
      Returned ({| status := 404;
                   body := ErrorBody (js "Stop niet gevonden") |}, w)
  | Some row =>
      ok ← verifyAnswer (Some (answer_hash row)) answer;
      if negb ok
      then Returned ({| status := 200; body := CorrectBody false |}, w)
      else
        tbl ← upsert_solved stopId runId (clock w)
                (stops w) (runs w) (progress w);
        Returned ({| status := 200; body := CorrectBody true |},
                  with_progress tbl w)
  end.

(** A handler that rejects is answered by the error handler. *)
Definition verify_and_record (runId stopId : jsstring)
    (answer : option jsstring) (w : World) : Reply * World :=
  match check_answer runId stopId answer w with
  | Returned out => out
  | Thrown e => error_handler e w
  end.

(** [app.post('/api/stops/answer', ...)] *)
Definition post_stops_answer (net : Net) (req : AnswerRequest) (w : World)
  : Reply * World :=
  if falsy (runId req) || falsy (stopId req)
  then ({| status := 400;
           body := ErrorBody (js "runId/stopId verplicht") |}, w)
  else
    let run := default [] (runId req) in
    let stop := default [] (stopId req) in
    let '(limited, w1) := throttle net run stop w in
    if limited
    then ({| status := 429; body := ErrorBody (js "Te veel pogingen") |}, w1)
    else verify_and_record run stop (answer req) w1.

(** [app.post('/api/stops/hint', ...)] *)
Definition post_stops_hint (req : AnswerRequest) (w : World)
  : Reply * World :=
  if falsy (runId req) || falsy (stopId req)
  then ({| status := 400;
           body := ErrorBody (js "runId/stopId verplicht") |}, w)
  else
    let run := default [] (runId req) in
    let stop := default [] (stopId req) in
    let handled :=
      st ← select_stop stop (stops w);
      match st with
      | None =>
          Returned ({| status := 404;
                       body := ErrorBody (js "Stop niet gevonden") |}, w)
      | Some row =>
          tbl ← upsert_hint stop run (stops w) (runs w) (progress w);
          Returned ({| status := 200;
                       body := HintBody (hint_markdown row)
                                        (hint_penalty row) |},
                    with_progress tbl w)
      end in
    match handled with
    | Returned out => out
    | Thrown e => error_handler e w
    end.
End Handlers.

(** ** A reference runtime

    The general theorems below hold for every [Runtime].  To evaluate the
    server on concrete requests one runtime is fixed here: lower-casing of
    ASCII, hexadecimal decoding that stops at the first pair that is not two
    hexadecimal digits, uuids in the canonical 8-4-4-4-12 form, and a
    stand-in key derivation (the real scrypt is not needed to run the
    handlers: the seed data only holds [plain:] credentials). *)
Module Reference.

Definition unhex (c : code_unit) : option N :=
  if (48 <=? c) && (c <=? 57) then Some (c - 48)
  else if (97 <=? c) && (c <=? 102) then Some (c - 87)
  else if (65 <=? c) && (c <=? 70) then Some (c - 55)
  else None.

Fixpoint hex_decode (s : jsstring) : buffer :=
  match s with
  | a :: b :: r =>
      match unhex a, unhex b with
      | Some x, Some y => (16 * x + y) :: hex_decode r
      | _, _ => []
      end
  | _ => []
  end.

Definition hex_value (s : jsstring) : option N :=
  foldl (λ acc c, a ← acc; d ← unhex c; Some (16 * a + d)) (Some 0) s.

Definition canonical_uuid (s : jsstring) : option uuid :=
  let groups := split 45 s in
  if bool_decide (length <$> groups = [8; 4; 4; 4; 12]%nat)
  then hex_value (concat groups)
  else None.

Definition stand_in_kdf (password salt : jsstring) (keylen : nat)
  : outcome buffer :=
  let seed := foldr N.add 0 password + 7 * foldr N.add 0 salt in
  Returned ((λ i, (seed + N.of_nat i) mod 256) <$> seq 0 keylen).

#[export] Instance runtime : Runtime := {
  toLowerCase s := ascii_lower <$> s;
  scrypt := stand_in_kdf;
  Buffer_from_hex := hex_decode;
  parse_uuid := canonical_uuid;
}.

End Reference.

(** ** Traces of requests *)

Inductive event : Type :=
  | Tick (milliseconds : N)
  | Answer (net : Net) (req : AnswerRequest)
  | Hint (req : AnswerRequest).

(** The counter key a request addresses. *)
Definition request_key (req : AnswerRequest) : jsstring :=
  rl_key (default [] (runId req)) (default [] (stopId req)).

Section Traces.
Context {R : Runtime}.

(** Handles the events in order; the trace pairs each request with its
    reply. *)
Fixpoint run_events (evs : list event) (w : World)
  : list (event * Reply) * World :=
  match evs with
  | [] => ([], w)
  | Tick d :: evs => run_events evs (tick (Z.of_N d) w)
  | Answer net req :: evs =>
      let '(rep, w1) := post_stops_answer net req w in
      let '(trace, w2) := run_events evs w1 in
      ((Answer net req, rep) :: trace, w2)
  | Hint req :: evs =>
      let '(rep, w1) := post_stops_hint req w in
      let '(trace, w2) := run_events evs w1 in
      ((Hint req, rep) :: trace, w2)
  end.
End Traces.

(** The replies to the answer submissions that address [key]. *)
Definition replies_for (key : jsstring) (trace : list (event * Reply))
  : list Reply :=
  omap (λ '(ev, rep),
          match ev with
          | Answer _ req =>
              if bool_decide (request_key req = key) then Some rep else None
          | _ => None
          end) trace.

(** Milliseconds that pass during a list of events. *)
Definition elapsed (evs : list event) : Z :=
  foldr (λ ev acc, match ev with Tick d => Z.of_N d + acc | _ => acc end)%Z
        0%Z evs.

(** Every submission that addresses [key] names a run and a stop, and its
    Redis commands reach the server. *)
Definition served (key : jsstring) (ev : event) : Prop :=
  match ev with
  | Answer net req =>
      request_key req = key →
      falsy (runId req) = false ∧ falsy (stopId req) = false
      ∧ incr_up net = true ∧ expire_up net = true
  | _ => True
  end.


(** ** The properties the specification words, stated on their own *)

Definition no_leading_ws (t : jsstring) : Prop :=
  ∀ c, head t = Some c → isWhiteSpace c = false.

Definition no_trailing_ws (t : jsstring) : Prop :=
  ∀ c, last t = Some c → isWhiteSpace c = false.

Definition all_ws (l : jsstring) : Prop :=
  Forall (λ c, isWhiteSpace c = true) l.

(** [t] is [s] without its leading and trailing whitespace. *)
Definition trimmed_of (s t : jsstring) : Prop :=
  ∃ l r, s = l ++ t ++ r ∧ all_ws l ∧ all_ws r
         ∧ no_leading_ws t ∧ no_trailing_ws t.

(** [u] is [t] with every maximal run of whitespace replaced by one space. *)
Inductive collapsed_of : jsstring → jsstring → Prop :=
  | collapsed_nil : collapsed_of [] []
  | collapsed_char c t u :
      isWhiteSpace c = false →
      collapsed_of t u → collapsed_of (c :: t) (c :: u)
  | collapsed_run run t u :
      run ≠ [] → all_ws run → no_leading_ws t →
      collapsed_of t u → collapsed_of (run ++ t) (32 :: u).

(** The rows of [tbl] for team [t] and stop [s]. *)
Definition row_of (t s : uuid) (r : ProgressRow) : bool :=
  match team_id r with
  | Some t' => (t =? t') && (s =? stop_id r)
  | None => false
  end.

Definition rows_of (t s : uuid) (tbl : list ProgressRow) : list ProgressRow :=
  List.filter (row_of t s) tbl.

(** The Progress invariant: at most one row per (team, stop). *)
Definition unique_team_stop (tbl : list ProgressRow) : Prop :=
  ∀ t s, (length (rows_of t s tbl) ≤ 1)%nat.

(** Every row of [tbl] is still at its place in [tbl'], with the same team
    and stop, and related to its old contents by [P]. *)
Definition rows_kept (P : ProgressRow → ProgressRow → Prop)
    (tbl tbl' : list ProgressRow) : Prop :=
  ∀ i r, tbl !! i = Some r →
         ∃ r', tbl' !! i = Some r'
               ∧ team_id r' = team_id r ∧ stop_id r' = stop_id r ∧ P r r'.

(** The hint flag recorded for team [t] at stop [s]; [false], the column
    default, when there is no row. *)
Definition hint_flag (t s : uuid) (tbl : list ProgressRow) : bool :=
  match rows_of t s tbl with
  | r :: _ => used_hint r
  | [] => false
  end.

(** ** Concrete data: the first stop of [seed.sql] *)
Module Demo.
Import Reference.

Definition stop_waag : jsstring := js "00000000-0000-0000-0000-0000000000a1".
Definition run_unknown : jsstring := js "00000000-0000-0000-0000-0000000000b7".
Definition run_1 : jsstring := js "00000000-0000-0000-0000-0000000000b1".

Definition waag : StopRow :=
  {| answer_hash := js "plain:de waag";
     hint_markdown := Some (js "Kijk naar de gevelsteen.");
     hint_penalty := Some 10%Z |}.

(** One stop, one run of team 0xc1, no progress yet, no Redis. *)
Definition world0 : World :=
  {| redis := None;
     stops := {[ 161 := waag ]};
     runs := {[ 177 := {| run_team_id := Some 193 |} ]};
     progress := [];
     clock := 1000;
     log := [] |}.

(** The same with a Redis client on an empty key space. *)
Definition world1 : World := with_redis (Some ∅) world0.

(** A salted credential for "de waag" under the stand-in key derivation. *)
Definition salt_waag : jsstring := js "NaCl".
Definition digest_waag : jsstring :=
  js "1b1c1d1e1f202122232425262728292a2b2c2d2e2f303132333435363738393a".

Definition net_up : Net := {| incr_up := true; expire_up := true |}.
Definition net_down : Net := {| incr_up := false; expire_up := false |}.
End Demo.

(** ** Helpers that mask the database configuration in the log *)

(** [maskValue(v, keep = 2)]: [keep = None] is an omitted argument; [keep]
    is a count, so a natural number. *)
Definition maskValue (v : option jsstring) (keep : option nat) : jsstring :=
  let keep := default 2%nat keep in
  match v with
  | None | Some [] => []
  | Some s =>
      if (length s <=? keep)%nat then replicate (length s) 42
      else take keep s
           ++ replicate
                (Z.to_nat (Z.max 0 (Z.of_nat (length s) - Z.of_nat keep))) 42
  end.

(** The object [getDbConfigFromEnv] returns; [ssl] is [undefined] or an
    options object [{ rejectUnauthorized }]. *)
Record DbConfig := {
  host : option jsstring;
  port : option Z;
  database : option jsstring;
  user : option jsstring;
  password : option jsstring;
  ssl : option bool;
}.

Record MaskedDbConfig := {
  masked_host : option jsstring;
  masked_port : option Z;
  masked_database : option jsstring;
  masked_user : jsstring;
  masked_password : jsstring;
  masked_ssl : bool;
}.

(** [maskDbConfig(c)]; the length in [(len=...)] is printed in decimal. *)
Definition maskDbConfig (c : DbConfig) : MaskedDbConfig :=
  {| masked_host := host c;
     masked_port := port c;
     masked_database := database c;
     masked_user := if falsy (user c) then [] else maskValue (user c) None;
     masked_password :=
       match password c with
       | Some ((_ :: _) as p) =>
           replicate (Nat.min 12 (length p)) 42
           ++ js " (len=" ++ js (pretty (length p)) ++ js ")"
       | _ => js "<none>"
       end;
     masked_ssl := bool_decide (is_Some (ssl c)) |}.

(** ** Teams and runs: [POST /api/teams] and [POST /api/runs/finish] *)

(** A JSON number is an IEEE double; the server only asks for its truth
    value and for [Number.prototype.toString]. *)
Class JsNumbers := {
  number : Type;
  Number_truthy : number → bool;
  Number_toString : number → jsstring;
}.

(** Request bodies as [JSON.parse] builds them.  Fastify refuses a body
    with a [__proto__] key before any handler runs, so every object here
    has [Object.prototype] as its prototype. *)
Inductive json {Num : JsNumbers} : Type :=
  | JNull
  | JBool (b : bool)
  | JNum (n : number)
  | JStr (s : jsstring)
  | JArr (items : list json)
  | JObj (fields : list (jsstring * json)).

Section Json.
Context {Num : JsNumbers}.

(** [v.key] for a key no prototype defines: the last binding of the key in
    an object, [undefined] for every other value. *)
Definition json_get (key : jsstring) (v : json) : option json :=
  match v with
  | JObj fields =>
      snd <$> last (List.filter (λ kv, bool_decide (kv.1 = key)) fields)
  | _ => None
  end.

(** Truthiness of a value that may be [undefined]. *)
Definition json_truthy (v : option json) : bool :=
  match v with
  | None | Some JNull => false
  | Some (JBool b) => b
  | Some (JNum n) => Number_truthy n
  | Some (JStr s) => negb (bool_decide (s = []))
  | Some (JArr _) | Some (JObj _) => true
  end.

(** [v.toString()].  An array joins the strings of its items with commas
    ([null] gives the empty string); an object with a key [toString] of its
    own has a value there that is not a function, so the call throws, as
    does the conversion of such an object inside an array. *)
Fixpoint json_toString (v : json) : outcome jsstring :=
  match v with
  | JNull => Thrown TypeError
  | JBool b => Returned (if b then js "true" else js "false")
  | JNum n => Returned (Number_toString n)
  | JStr s => Returned s
  | JArr items =>
      (fix join (l : list json) : outcome jsstring :=
         match l with
         | [] => Returned []
         | x :: r =>
             a ← match x with
                 | JNull => Returned []
                 | _ => json_toString x
                 end;
             match r with
             | [] => Returned a
             | _ :: _ => b ← join r; Returned (a ++ 44 :: b)
             end
         end) items
  | JObj fields =>
      if existsb (λ kv, bool_decide (kv.1 = js "toString")) fields
      then Thrown TypeError
      else Returned (js "[object Object]")
  end.

(** [(body.name || 'Team').toString().slice(0, 80)] with
    [body = req.body || {}]. *)
Definition requested_name (body : option json) : outcome jsstring :=
  let name := if json_truthy body then body ≫= json_get (js "name")
              else None in
  s ← match name with
      | Some v => if json_truthy name then json_toString v
                  else Returned (js "Team")
      | None => Returned (js "Team")
      end;
  Returned (take 80 s).
End Json.

(** A string sent to Postgres as a text parameter is encoded in UTF-8: a
    surrogate without its partner becomes U+FFFD, and a string with U+0000
    is refused by the server. *)
Definition is_high_surrogate (c : code_unit) : bool :=
  (55296 <=? c) && (c <=? 56319).

Definition is_low_surrogate (c : code_unit) : bool :=
  (56320 <=? c) && (c <=? 57343).

Fixpoint well_formed (s : jsstring) : jsstring :=
  match s with
  | [] => []
  | a :: r =>
      if is_high_surrogate a then
        match r with
        | b :: r' =>
            if is_low_surrogate b then a :: b :: well_formed r'
            else 65533 :: well_formed r
        | [] => [65533]
        end
      else if is_low_surrogate a then 65533 :: well_formed r
      else a :: well_formed r
  end.

Definition pg_text (s : jsstring) : outcome jsstring :=
  if bool_decide (0 ∈ s) then Thrown PgError else Returned (well_formed s).

(** [teams]: [id] is the primary key, [join_code] is [UNIQUE NOT NULL]. *)
Record TeamRow := {
  team_row_id : uuid;
  team_name : jsstring;
  join_code : jsstring;
  created_at : Z;
}.

(** [INSERT INTO teams (name, join_code) VALUES ($1,$2) RETURNING ...]:
    [id] is the value [gen_random_uuid()] draws; a taken [id] or
    [join_code] violates the key and nothing is inserted. *)
Definition insert_team (id : uuid) (name code : jsstring) (now : Z)
    (teams : list TeamRow) : outcome (TeamRow * list TeamRow) :=
  name ← pg_text name;
  code ← pg_text code;
  let row := {| team_row_id := id; team_name := name; join_code := code;
                created_at := now |} in
  if existsb (λ t, (team_row_id t =? id)
                   || bool_decide (join_code t = code)) teams
  then Thrown PgError
  else Returned (row, teams ++ [row]).

(** [app.post('/api/teams', ...)]: [code] is the value of
    [Math.random().toString(36).slice(2, 8).toUpperCase()] and [id] the
    uuid Postgres draws, both inputs here; the reply is the inserted row or
    the reply of the error handler. *)
Definition post_teams {Num : JsNumbers} (body : option json)
    (code : jsstring) (id : uuid) (teams : list TeamRow) (w : World)
  : (TeamRow + Reply) * list TeamRow * World :=
  match name ← requested_name body;
        insert_team id name code (clock w) teams with
  | Returned (row, teams') => (inl row, teams', w)
  | Thrown e => (inr (error_handler e w).1, teams, (error_handler e w).2)
  end.





Section Finish.
Context {R : Runtime}.

End Finish.

(** ** More concrete data *)
Module Samples.

(** The first stop of the seed, spelled with upper-case digits. *)
Definition stop_waag_upper : jsstring :=
  js "00000000-0000-0000-0000-0000000000A1".

(** A salted credential that lost its digest. *)
Definition waag_no_digest : StopRow :=
  {| answer_hash := js "scrypt:NaCl";
     hint_markdown := None;
     hint_penalty := Some 10%Z |}.

(** [INCR] reaches Redis, [EXPIRE] does not. *)
Definition net_expire_down : Net := {| incr_up := true; expire_up := false |}.

(** Whole numbers as JSON numbers, enough to run the handlers on. *)
Definition integers : JsNumbers :=
  {| number := Z;
     Number_truthy := λ z, negb (z =? 0)%Z;
     Number_toString := λ z, js (pretty z) |}.

Definition team_a : TeamRow :=
  {| team_row_id := 193; team_name := js "Team A"; join_code := js "K3X9QZ";
     created_at := 0 |}.

End Samples.

(** * Theorems *)

(** ** Strings *)

Lemma js_plain : js "plain:" = [112; 108; 97; 105; 110; 58].
Proof. reflexivity. Qed.

Lemma js_scrypt : js "scrypt:" = [115; 99; 114; 121; 112; 116; 58].
Proof. reflexivity. Qed.

Lemma split_no_sep sep s : sep ∉ s → split sep s = [s].
Proof.
  induction s as [|c r IH]; intros Hs; [done|].
  apply not_elem_of_cons in Hs as [Hc Hr]. simpl.
  destruct (N.eqb_spec c sep) as [->|_]; [done|].
  by rewrite IH.
Qed.

Lemma split_app_sep sep a b :
  sep ∉ a → split sep (a ++ sep :: b) = a :: split sep b.
Proof.
  induction a as [|c r IH]; intros Ha; simpl.
  - by rewrite N.eqb_refl.
  - apply not_elem_of_cons in Ha as [Hc Hr].
    destruct (N.eqb_spec c sep) as [->|_]; [done|].
    by rewrite IH.
Qed.

Lemma not_elem_check (c : N) (s : jsstring) :
  forallb (λ x, negb (x =? c)) s = true → c ∉ s.
Proof.
  rewrite forallb_forall. intros H Hc.
  apply list_elem_of_In, H in Hc. by rewrite N.eqb_refl in Hc.
Qed.

Lemma split_three sep a b c :
  sep ∉ a → sep ∉ b → sep ∉ c →
  split sep (a ++ [sep] ++ b ++ [sep] ++ c) = [a; b; c].
Proof.
  intros Ha Hb Hc. simpl.
  rewrite split_app_sep; [done|]. rewrite split_app_sep; [done|].
  by rewrite split_no_sep.
Qed.

Lemma trimStart_split s :
  ∃ l, s = l ++ trimStart s ∧ all_ws l ∧ no_leading_ws (trimStart s).
Proof.
  induction s as [|c r (l & Hl & Hws & Hlead)]; simpl.
  - exists []. repeat split; [constructor | by intros c].
  - destruct (isWhiteSpace c) eqn:Hc.
    + exists (c :: l).
      repeat split; [by rewrite /= -Hl | by constructor | done].
    + exists []. repeat split; [constructor|]. intros c' [= <-]. done.
Qed.

Lemma trimStart_no_trailing s :
  no_trailing_ws s → no_trailing_ws (trimStart s).
Proof.
  induction s as [|c r IH]; intros Hs; simpl; [done|].
  destruct (isWhiteSpace c) eqn:Hc; [|done].
  apply IH. intros c' Hc'. apply Hs.
  destruct r; [done|]. by rewrite last_cons Hc'.
Qed.

Lemma head_reverse (s : jsstring) : head (reverse s) = last s.
Proof.
  induction s as [|c r IH] using rev_ind; [done|].
  by rewrite reverse_snoc last_snoc.
Qed.

Lemma last_reverse (s : jsstring) : last (reverse s) = head s.
Proof. by rewrite -head_reverse reverse_involutive. Qed.

Lemma all_ws_reverse l : all_ws l → all_ws (reverse l).
Proof. intros H. by apply Forall_reverse. Qed.

Lemma trim_trimmed_of s : trimmed_of s (trim s).
Proof.
  unfold trim, trimEnd.
  destruct (trimStart_split s) as (l & Hl & Hwl & Hlead).
  set (m := trimStart s) in *.
  destruct (trimStart_split (reverse m)) as (r & Hr & Hwr & Htrail).
  exists l, (reverse r). repeat split.
  - rewrite {1}Hl. f_equal.
    rewrite -{1}(reverse_involutive m) {1}Hr reverse_app. done.
  - done.
  - by apply all_ws_reverse.
  - intros c Hc. rewrite -last_reverse reverse_involutive in Hc.
    eapply trimStart_no_trailing; [|exact Hc].
    intros c' Hc'. rewrite last_reverse in Hc'. by apply Hlead.
  - intros c Hc. rewrite -head_reverse reverse_involutive in Hc.
    by apply Htrail.
Qed.

Lemma replace_ws_collapsed t :
  collapsed_of t (replace_ws_from false t)
  ∧ collapsed_of (trimStart t) (replace_ws_from true t).
Proof.
  induction t as [|c r [IH1 IH2]]; simpl.
  - split; constructor.
  - destruct (isWhiteSpace c) eqn:Hc.
    + split; [|done].
      destruct (trimStart_split r) as (l & Hl & Hwl & Hlead).
      rewrite {1}Hl. apply (collapsed_run (c :: l)); try done.
      by constructor.
    + split; by constructor.
Qed.

Lemma is_ascii_check s : forallb (λ c, c <? 128) s = true → is_ascii s.
Proof.
  intros H. apply Forall_forall. intros c Hc.
  rewrite forallb_forall in H. apply N.ltb_lt, H. by apply list_elem_of_In.
Qed.

Lemma is_ascii_trimStart s : is_ascii s → is_ascii (trimStart s).
Proof.
  induction 1 as [|c r Hc Hr IH]; simpl; [constructor|].
  destruct (isWhiteSpace c); [done | by constructor].
Qed.

Lemma is_ascii_trim s : is_ascii s → is_ascii (trim s).
Proof.
  intros H. unfold trim, trimEnd.
  apply Forall_reverse, is_ascii_trimStart, Forall_reverse.
  by apply is_ascii_trimStart.
Qed.

Section VerifierFacts.
Context {R : Runtime}.

Lemma normalizeAnswer_ascii s :
  lowercases_ascii R → is_ascii (default [] s) →
  normalizeAnswer s = replace_ws (ascii_lower <$> trim (default [] s)).
Proof.
  intros HR Hs. unfold normalizeAnswer.
  by rewrite (HR _ (is_ascii_trim _ Hs)).
Qed.

Lemma verifyAnswer_nonempty stored input :
  stored ≠ [] →
  verifyAnswer (Some stored) input
  = if startsWith (js "plain:") stored then
      Returned (bool_decide (drop 6 stored = normalizeAnswer input))
    else if startsWith (js "scrypt:") stored then
      match split 58 stored !! 1%nat with
      | None => Thrown TypeError
      | Some salt =>
          key ← scrypt (normalizeAnswer input) salt 32;
          match split 58 stored !! 2%nat with
          | None => Thrown TypeError
          | Some hex => Returned (Buffer_equals (Buffer_from_hex hex) key)
          end
      end
    else Returned (bool_decide (stored = normalizeAnswer input)).
Proof. by destruct stored. Qed.

Lemma verifyAnswer_plain a input :
  verifyAnswer (Some (js "plain:" ++ a)) input
  = Returned (bool_decide (a = normalizeAnswer input)).
Proof. rewrite js_plain /=. by rewrite drop_0. Qed.
End VerifierFacts.

Lemma runtime_lowercases_ascii : lowercases_ascii Reference.runtime.
Proof. by intros s _. Qed.

(** ** The answer verifier *)

(** C8. [normalizeAnswer] removes the leading and trailing whitespace of its
    input, lower-cases what is left and replaces every maximal run of
    whitespace by one space; on ASCII input the lower-casing is the map of
    [A]..[Z] to [a]..[z]; an absent or empty input gives the empty string,
    and [" Deventer  Koekbier "] gives ["deventer koekbier"]. *)
Theorem normalizeAnswer_spec `{R : Runtime} (HR : lowercases_ascii R) :
  (∀ s, ∃ core,
      trimmed_of s core
      ∧ collapsed_of (toLowerCase core) (normalizeAnswer (Some s)))
  ∧ (∀ s, is_ascii s →
       ∃ core, trimmed_of s core
               ∧ collapsed_of (ascii_lower <$> core) (normalizeAnswer (Some s)))
  ∧ normalizeAnswer None = []
  ∧ normalizeAnswer (Some (js "")) = js ""
  ∧ normalizeAnswer (Some (js " Deventer  Koekbier ")) = js "deventer koekbier".
Proof.
  split_and!.
  - intros s. exists (trim s). split; [apply trim_trimmed_of|].
    apply replace_ws_collapsed.
  - intros s Hs. exists (trim s). split; [apply trim_trimmed_of|].
    rewrite (normalizeAnswer_ascii (Some s) HR Hs).
    apply replace_ws_collapsed.
  - by rewrite (normalizeAnswer_ascii _ HR); [apply is_ascii_check|].
  - by rewrite (normalizeAnswer_ascii _ HR); [apply is_ascii_check|].
  - by rewrite (normalizeAnswer_ascii _ HR); [apply is_ascii_check|].
Qed.

Lemma normalizeAnswer_spec_witness :
  lowercases_ascii Reference.runtime
  ∧ @normalizeAnswer Reference.runtime (Some (js " Deventer  Koekbier "))
    = js "deventer koekbier".
Proof.
  split.
  - intros s _. reflexivity.
  - apply (@normalizeAnswer_spec Reference.runtime). intros s _. reflexivity.
Defined.

(** C7. For a credential [plain:<answer>], [verifyAnswer] returns whether
    [<answer>], taken as stored, equals the normalized input;
    ["plain:de waag"] accepts ["De   Waag"] and rejects ["dewaag"], and a
    stored answer that is not in normal form is not normalized. *)
Theorem verifyAnswer_plain_spec `{R : Runtime} (HR : lowercases_ascii R) :
  (∀ a input,
      verifyAnswer (Some (js "plain:" ++ a)) input
      = Returned (bool_decide (a = normalizeAnswer input)))
  ∧ verifyAnswer (Some (js "plain:de waag")) (Some (js "De   Waag"))
    = Returned true
  ∧ verifyAnswer (Some (js "plain:de waag")) (Some (js "dewaag"))
    = Returned false
  ∧ verifyAnswer (Some (js "plain:De Waag")) (Some (js "De Waag"))
    = Returned false.
Proof.
  split_and!.
  - apply verifyAnswer_plain.
  - rewrite (verifyAnswer_plain (js "de waag")).
    by rewrite (normalizeAnswer_ascii _ HR); [apply is_ascii_check|].
  - rewrite (verifyAnswer_plain (js "de waag")).
    by rewrite (normalizeAnswer_ascii _ HR); [apply is_ascii_check|].
  - rewrite (verifyAnswer_plain (js "De Waag")).
    by rewrite (normalizeAnswer_ascii _ HR); [apply is_ascii_check|].
Qed.

Lemma verifyAnswer_plain_spec_witness :
  lowercases_ascii Reference.runtime
  ∧ @verifyAnswer Reference.runtime
      (Some (js "plain:de waag")) (Some (js "De   Waag")) = Returned true.
Proof.
  split.
  - intros s _. reflexivity.
  - apply (@verifyAnswer_plain_spec Reference.runtime). intros s _. reflexivity.
Defined.

(** C9. A missing or empty credential is rejected for every input, without
    throwing; a non-empty credential that starts with neither [plain:] nor
    [scrypt:] is accepted exactly when the whole stored string equals the
    normalized input. *)
Theorem verifyAnswer_fallback_spec `{R : Runtime} :
  (∀ input, verifyAnswer None input = Returned false
            ∧ verifyAnswer (Some []) input = Returned false)
  ∧ (∀ stored input,
       stored ≠ [] →
       startsWith (js "plain:") stored = false →
       startsWith (js "scrypt:") stored = false →
       verifyAnswer (Some stored) input
       = Returned (bool_decide (stored = normalizeAnswer input))).
Proof.
  split; [done|].
  intros stored input Hne Hplain Hscrypt.
  destruct stored as [|c r]; [done|].
  unfold verifyAnswer. by rewrite Hplain Hscrypt.
Qed.

Lemma verifyAnswer_fallback_spec_witness :
  js "unknown-tag:xyz" ≠ []
  ∧ startsWith (js "plain:") (js "unknown-tag:xyz") = false
  ∧ startsWith (js "scrypt:") (js "unknown-tag:xyz") = false
  ∧ @verifyAnswer Reference.runtime (Some (js "unknown-tag:xyz"))
      (Some (js "xyz"))
    = Returned (bool_decide (js "unknown-tag:xyz"
                             = @normalizeAnswer Reference.runtime
                                 (Some (js "xyz")))).
Proof.
  split_and!; [done | reflexivity | reflexivity |].
  apply (proj2 (@verifyAnswer_fallback_spec Reference.runtime));
    [done | reflexivity | reflexivity].
Defined.

(** C6. For a credential [scrypt:<salt>:<digest>] (no colon inside the salt
    or the digest) and an input whose key derivation succeeds,
    [verifyAnswer] returns whether the bytes decoded from [<digest>] equal
    the 32-byte key derived from the normalized input and the salt: a salt
    or input that derives another key is rejected; the verdict depends on
    the input through its normal form only. *)
Theorem verifyAnswer_scrypt_spec `{R : Runtime} salt digest input key :
  58 ∉ salt → 58 ∉ digest →
  scrypt (normalizeAnswer input) salt 32 = Returned key →
  let stored := Some (js "scrypt:" ++ salt ++ js ":" ++ digest) in
  verifyAnswer stored input
  = Returned (bool_decide (Buffer_from_hex digest = key))
  ∧ (Buffer_from_hex digest ≠ key → verifyAnswer stored input = Returned false)
  ∧ (∀ input', normalizeAnswer input' = normalizeAnswer input →
               verifyAnswer stored input' = verifyAnswer stored input).
Proof.
  intros Hsalt Hdigest Hkey stored.
  assert (Hsplit : split 58 (js "scrypt:" ++ salt ++ js ":" ++ digest)
                   = [js "scrypt"; salt; digest]).
  { change (js "scrypt:" ++ salt ++ js ":" ++ digest)
      with (js "scrypt" ++ [58] ++ salt ++ [58] ++ digest).
    apply split_three; [|done..]. by apply not_elem_check. }
  assert (Hverify : ∀ i,
    verifyAnswer stored i
    = (k ← scrypt (normalizeAnswer i) salt 32;
       Returned (bool_decide (Buffer_from_hex digest = k)))).
  { intros i. unfold stored. rewrite verifyAnswer_nonempty; [done|].
    rewrite Hsplit. done. }
  split_and!.
  - by rewrite Hverify Hkey.
  - intros Hne. rewrite Hverify Hkey /=. by rewrite bool_decide_eq_false_2.
  - intros input' Heq. by rewrite !Hverify Heq.
Qed.

Lemma verifyAnswer_scrypt_spec_witness :
  @verifyAnswer Reference.runtime
    (Some (js "scrypt:" ++ Demo.salt_waag ++ js ":" ++ Demo.digest_waag))
    (Some (js " De  Waag"))
  = Returned true.
Proof.
  refine (eq_trans (proj1 (@verifyAnswer_scrypt_spec Reference.runtime
            Demo.salt_waag Demo.digest_waag (Some (js " De  Waag"))
            (Reference.hex_decode Demo.digest_waag) _ _ _)) _).
  - by apply not_elem_check.
  - by apply not_elem_check.
  - reflexivity.
  - reflexivity.
Defined.

(** ** The progress table *)

Lemma row_of_true t s r :
  row_of t s r = true ↔ team_id r = Some t ∧ stop_id r = s.
Proof.
  unfold row_of. destruct (team_id r) as [t'|]; [|naive_solver].
  rewrite andb_true_iff !N.eqb_eq. naive_solver.
Qed.

Lemma conflicts_row_of cand t r :
  team_id cand = Some t → conflicts cand r = row_of t (stop_id cand) r.
Proof. intros H. unfold conflicts, row_of. by rewrite H. Qed.

Lemma conflicts_true cand r :
  conflicts cand r = true →
  ∃ t, team_id cand = Some t ∧ team_id r = Some t ∧ stop_id r = stop_id cand.
Proof.
  unfold conflicts.
  destruct (team_id cand) as [t|], (team_id r) as [t'|]; try done.
  rewrite andb_true_iff !N.eqb_eq. naive_solver.
Qed.

Lemma existsb_filter_nil {A} (p : A → bool) l :
  existsb p l = false ↔ List.filter p l = [].
Proof.
  induction l as [|x l IH]; simpl; [done|].
  destruct (p x); simpl; [naive_solver | done].
Qed.

Lemma existsb_conflicts cand t tbl :
  team_id cand = Some t →
  existsb (conflicts cand) tbl = existsb (row_of t (stop_id cand)) tbl.
Proof.
  intros H. induction tbl as [|r tbl IH]; [done|].
  by rewrite /= IH (conflicts_row_of _ t).
Qed.

Lemma rows_of_app t s l1 l2 :
  rows_of t s (l1 ++ l2) = rows_of t s l1 ++ rows_of t s l2.
Proof. apply List.filter_app. Qed.

(** What an upsert does to the rows of one (team, stop) pair. *)
Lemma rows_of_insert t s cand f tbl :
  (∀ r, team_id (f r) = team_id r ∧ stop_id (f r) = stop_id r) →
  rows_of t s (insert_on_conflict cand f tbl)
  = if row_of t s cand
    then match rows_of t s tbl with
         | [] => [cand]
         | l => f <$> l
         end
    else rows_of t s tbl.
Proof.
  intros Hf. unfold insert_on_conflict.
  destruct (row_of t s cand) eqn:Hcand.
  - apply row_of_true in Hcand as Hkey. destruct Hkey as [Ht <-].
    rewrite (existsb_conflicts _ t) //.
    destruct (existsb (row_of t (stop_id cand)) tbl) eqn:Hex.
    + assert (Hne : rows_of t (stop_id cand) tbl ≠ []).
      { intros Hnil. apply existsb_filter_nil in Hnil. congruence. }
      assert (Hmap : rows_of t (stop_id cand)
                       ((λ r, if conflicts cand r then f r else r) <$> tbl)
                     = f <$> rows_of t (stop_id cand) tbl).
      { clear Hex Hne. induction tbl as [|r tbl IH]; [done|].
        rewrite fmap_cons /= (conflicts_row_of _ t) //.
        destruct (row_of t (stop_id cand) r) eqn:Hr.
        - assert (row_of t (stop_id cand) (f r) = true) as ->.
          { apply row_of_true. apply row_of_true in Hr.
            destruct (Hf r) as [-> ->]. done. }
          by rewrite fmap_cons -IH.
        - by rewrite Hr. }
      rewrite Hmap. by destruct (rows_of t (stop_id cand) tbl).
    + assert (rows_of t (stop_id cand) tbl = []) as Hnil.
      { by apply existsb_filter_nil. }
      rewrite rows_of_app Hnil /=. by rewrite Hcand.
  - destruct (existsb (conflicts cand) tbl).
    + induction tbl as [|r tbl IH]; [done|].
      rewrite fmap_cons /=. rewrite IH.
      destruct (conflicts cand r) eqn:Hc.
      * apply conflicts_true in Hc as (t' & Hct & Hrt & Hrs).
        assert (row_of t s r = false) as Hr.
        { apply not_true_iff_false. intros [Ht Hs]%row_of_true.
          apply not_true_iff_false in Hcand. apply Hcand, row_of_true.
          split; congruence. }
        assert (row_of t s (f r) = false) as ->; [|by rewrite Hr].
        apply not_true_iff_false. intros [Ht Hs]%row_of_true.
        apply not_true_iff_false in Hr. apply Hr, row_of_true.
        destruct (Hf r) as [<- <-]. done.
      * done.
    + rewrite rows_of_app /=. by rewrite Hcand app_nil_r.
Qed.

Lemma insert_on_conflict_unique cand f tbl :
  (∀ r, team_id (f r) = team_id r ∧ stop_id (f r) = stop_id r) →
  unique_team_stop tbl → unique_team_stop (insert_on_conflict cand f tbl).
Proof.
  intros Hf Hu t s. rewrite rows_of_insert //.
  specialize (Hu t s).
  destruct (row_of t s cand); [|done].
  destruct (rows_of t s tbl) as [|r l] eqn:Hrows; [done|].
  by rewrite length_fmap.
Qed.

Lemma insert_on_conflict_kept cand f tbl i r :
  tbl !! i = Some r →
  ∃ r', insert_on_conflict cand f tbl !! i = Some r' ∧ (r' = r ∨ r' = f r).
Proof.
  intros Hi. unfold insert_on_conflict.
  destruct (existsb (conflicts cand) tbl).
  - rewrite list_lookup_fmap Hi /=.
    destruct (conflicts cand r); eauto.
  - exists r. split; [|by left]. by apply lookup_app_l_Some.
Qed.

Lemma insert_on_conflict_rows_kept (P : ProgressRow → ProgressRow → Prop)
    cand f tbl :
  (∀ r, team_id (f r) = team_id r ∧ stop_id (f r) = stop_id r) →
  (∀ r, P r r) → (∀ r, P r (f r)) →
  rows_kept P tbl (insert_on_conflict cand f tbl).
Proof.
  intros Hf Hrefl HP i r Hi.
  destruct (insert_on_conflict_kept cand f tbl i r Hi) as (r' & Hr' & [->| ->]).
  - by exists r.
  - exists (f r). destruct (Hf r). by split_and!.
Qed.

Lemma insert_checked_ok (stops : gmap N StopRow) (cand : ProgressRow)
    (f : ProgressRow → ProgressRow) (tbl : list ProgressRow) :
  is_Some (stops !! stop_id cand) →
  insert_checked stops cand f tbl = Returned (insert_on_conflict cand f tbl).
Proof.
  intros Hstop. unfold insert_checked.
  by rewrite (bool_decide_eq_true_2 _ Hstop) andb_false_r.
Qed.

Lemma insert_on_conflict_length cand f tbl :
  length (insert_on_conflict cand f tbl)
  = if existsb (conflicts cand) tbl then length tbl else S (length tbl).
Proof.
  unfold insert_on_conflict. destruct (existsb (conflicts cand) tbl).
  - by rewrite length_fmap.
  - rewrite length_app /=. lia.
Qed.

Lemma set_solved_at_keys t r :
  team_id (set_solved_at t r) = team_id r
  ∧ stop_id (set_solved_at t r) = stop_id r.
Proof. done. Qed.

Lemma set_used_hint_keys b r :
  team_id (set_used_hint b r) = team_id r
  ∧ stop_id (set_used_hint b r) = stop_id r.
Proof. done. Qed.

(** C2. For well-formed identifiers and a stop that exists (both handlers
    look the stop up first), both upserts run to completion and preserve
    "at most one row per (team, stop)"; the solved-upsert leaves the
    hint flag of every existing row as it was, the hint-upsert leaves every
    solved timestamp as it was and never lowers a hint flag; two
    solved-upserts in a row for the run of team [t] leave exactly one row
    for (t, stop), stamped by the second call, with the hint flag the pair
    had before. *)
Theorem progress_upserts_spec `{R : Runtime}
    (stopId runId : list N) (s r : N) (stops : gmap N StopRow)
    (runs : gmap N RunRow) (tbl : list ProgressRow) (now : Z) :
  parse_uuid stopId = Some s → parse_uuid runId = Some r →
  is_Some (stops !! s) →
  unique_team_stop tbl →
  (∃ tbl', upsert_solved stopId runId now stops runs tbl = Returned tbl'
           ∧ unique_team_stop tbl'
           ∧ rows_kept (λ old new, used_hint new = used_hint old) tbl tbl')
  ∧ (∃ tbl', upsert_hint stopId runId stops runs tbl = Returned tbl'
             ∧ unique_team_stop tbl'
             ∧ rows_kept (λ old new,
                             solved_at new = solved_at old
                             ∧ (used_hint old = true → used_hint new = true))
                         tbl tbl')
  ∧ (∀ t now', runs !! r = Some {| run_team_id := Some t |} →
       ∃ tbl1 tbl2 row,
         upsert_solved stopId runId now stops runs tbl = Returned tbl1
         ∧ upsert_solved stopId runId now' stops runs tbl1 = Returned tbl2
         ∧ length tbl2 = length tbl1
         ∧ rows_of t s tbl2 = [row]
         ∧ solved_at row = Some now'
         ∧ used_hint row = hint_flag t s tbl1
         ∧ hint_flag t s tbl1 = hint_flag t s tbl).
Proof.
  intros Hs Hr Hstop Hu. unfold upsert_solved, upsert_hint, select_run.
  rewrite Hs Hr /=. split_and!.
  - destruct (runs !! r) as [run|]; rewrite ?insert_checked_ok //;
      eexists; (split; [done|]).
    + split; [by apply insert_on_conflict_unique|].
      by apply insert_on_conflict_rows_kept.
    + split; [done|]. intros i row Hi. by exists row.
  - destruct (runs !! r) as [run|]; rewrite ?insert_checked_ok //;
      eexists; (split; [done|]).
    + split; [by apply insert_on_conflict_unique|].
      by apply insert_on_conflict_rows_kept.
    + split; [done|]. intros i row Hi. by exists row.
  - intros t now' ->. simpl.
    set (cand n := {| team_id := Some t; stop_id := s;
                      solved_at := Some n; used_hint := false |}).
    set (tbl1 := insert_on_conflict (cand now) (set_solved_at (Some now)) tbl).
    assert (Hkey : ∀ n, row_of t s (cand n) = true).
    { intros n. by apply row_of_true. }
    assert (H1 : ∃ x, rows_of t s tbl1 = [x]
                      ∧ used_hint x = hint_flag t s tbl).
    { unfold tbl1, hint_flag.
      rewrite rows_of_insert; [apply set_solved_at_keys|]. rewrite Hkey.
      specialize (Hu t s).
      destruct (rows_of t s tbl) as [|r0 [|r1 l]]; simpl in *;
        [by eexists | by eexists | lia]. }
    destruct H1 as (x & Hx & Hflag).
    exists tbl1,
      (insert_on_conflict (cand now') (set_solved_at (Some now')) tbl1),
      (set_solved_at (Some now') x).
    split_and!; rewrite ?insert_checked_ok //.
    + rewrite insert_on_conflict_length (existsb_conflicts _ t) //=.
      destruct (existsb (row_of t s) tbl1) eqn:Hex; [done|].
      apply existsb_filter_nil in Hex. unfold rows_of in Hx. congruence.
    + rewrite rows_of_insert; [apply set_solved_at_keys|].
      by rewrite Hkey Hx.
    + by rewrite /hint_flag Hx.
    + by rewrite /hint_flag Hx.
Qed.

Lemma progress_upserts_spec_witness :
  ∃ tbl', @upsert_solved Reference.runtime Demo.stop_waag Demo.run_1 1000
            (stops Demo.world0) (runs Demo.world0) [] = Returned tbl'
          ∧ unique_team_stop tbl'.
Proof.
  destruct (@progress_upserts_spec Reference.runtime
              Demo.stop_waag Demo.run_1 161 177 (stops Demo.world0)
              (runs Demo.world0) [] 1000)
    as [(tbl' & H1 & H2 & _) _].
  - reflexivity.
  - reflexivity.
  - by exists Demo.waag.
  - intros t s. simpl. lia.
  - by exists tbl'.
Defined.

(** ** The answer handler *)

#[local] Arguments verifyAnswer : simpl never.
#[local] Arguments upsert_solved : simpl never.
#[local] Arguments upsert_hint : simpl never.
#[local] Arguments select_stop : simpl never.
#[local] Arguments rate_limit : simpl never.

Section HandlerFacts.
Context {R : Runtime}.

Lemma post_stops_answer_named net req w run stop :
  runId req = Some run → run ≠ [] → stopId req = Some stop → stop ≠ [] →
  post_stops_answer net req w
  = let '(limited, w1) := throttle net run stop w in
    if limited
    then ({| status := 429; body := ErrorBody (js "Te veel pogingen") |}, w1)
    else verify_and_record run stop (answer req) w1.
Proof.
  intros Hrun Hr Hstop Hs. unfold post_stops_answer.
  rewrite Hrun Hstop /=. by destruct run, stop.
Qed.

(** The rate limit touches Redis and the log only. *)
Lemma throttle_frame net run stop w :
  let w1 := (throttle net run stop w).2 in
  stops w1 = stops w ∧ runs w1 = runs w
  ∧ progress w1 = progress w ∧ clock w1 = clock w.
Proof.
  unfold throttle. destruct (redis w) as [db|]; [|done].
  by destruct (rate_limit net (clock w) run stop db) as [[limited db'] l].
Qed.

(** Verification reads the tables and the clock only. *)
Lemma check_answer_frame run stop a w w1 :
  stops w1 = stops w → runs w1 = runs w →
  progress w1 = progress w → clock w1 = clock w →
  (verify_and_record run stop a w1).1 = (verify_and_record run stop a w).1
  ∧ progress (verify_and_record run stop a w1).2
    = progress (verify_and_record run stop a w).2.
Proof.
  intros Hs Hr Hp Hc. unfold verify_and_record, check_answer.
  rewrite Hs Hr Hp Hc.
  destruct (select_stop stop (stops w)) as [[row|]|e]; simpl; rewrite ?Hp //.
  destruct (verifyAnswer (Some (answer_hash row)) a) as [[]|e]; simpl;
    rewrite ?Hp //.
  destruct (upsert_solved stop run (clock w) (stops w) (runs w) (progress w));
    simpl; rewrite ?Hp //.
Qed.

(** Verification logs nothing but the error of a handler that rejects. *)
Lemma verify_and_record_log_error run stop a w :
  log (verify_and_record run stop a w).2 = log w
  ∨ ∃ e, log (verify_and_record run stop a w).2 = log w ++ [LogError e].
Proof.
  unfold verify_and_record, check_answer.
  destruct (select_stop stop (stops w)) as [[row|]|e]; simpl;
    [|by left|by right; eexists].
  destruct (verifyAnswer (Some (answer_hash row)) a) as [[]|e]; simpl;
    [|by left|by right; eexists].
  destruct (upsert_solved stop run (clock w) (stops w) (runs w) (progress w));
    simpl; [by left|by right; eexists].
Qed.

(** Verification only ever adds to the log. *)
Lemma verify_and_record_log run stop a w :
  ∃ l, log (verify_and_record run stop a w).2 = log w ++ l.
Proof.
  unfold verify_and_record, check_answer.
  destruct (select_stop stop (stops w)) as [[row|]|e]; simpl;
    [|by exists []; rewrite app_nil_r|by eexists].
  destruct (verifyAnswer (Some (answer_hash row)) a) as [[]|e]; simpl;
    [|by exists []; rewrite app_nil_r|by eexists].
  destruct (upsert_solved stop run (clock w) (stops w) (runs w) (progress w));
    simpl; [by exists []; rewrite app_nil_r|by eexists].
Qed.

Lemma verify_and_record_status run stop a w :
  let rep := (verify_and_record run stop a w).1 in
  status rep = 404%nat ∨ status rep = 200%nat ∨ status rep = 500%nat.
Proof.
  unfold verify_and_record, check_answer.
  destruct (select_stop stop (stops w)) as [[row|]|e]; simpl; auto.
  destruct (verifyAnswer (Some (answer_hash row)) a) as [[]|e]; simpl; auto.
  destruct (upsert_solved stop run (clock w) (stops w) (runs w) (progress w));
    simpl; auto.
Qed.

(** With a stop that exists and a run that does not, verification never
    answers 404 and never writes. *)
Lemma verify_and_record_unknown_run run stop a w s row :
  parse_uuid stop = Some s → stops w !! s = Some row →
  (∀ r, parse_uuid run = Some r → runs w !! r = None) →
  let out := verify_and_record run stop a w in
  progress out.2 = progress w
  ∧ status out.1 ≠ 404%nat
  ∧ (∀ ok, is_Some (parse_uuid run) →
           verifyAnswer (Some (answer_hash row)) a = Returned ok →
           out.1 = {| status := 200; body := CorrectBody ok |}).
Proof.
  intros Hs Hrow Hrun.
  unfold verify_and_record, check_answer, select_stop, upsert_solved,
    select_run.
  rewrite Hs Hrow. cbn [mbind outcome_bind].
  destruct (verifyAnswer (Some (answer_hash row)) a) as [[]|e]; simpl.
  - destruct (parse_uuid run) as [r|] eqn:Hr; simpl.
    + rewrite (Hrun r) //=. split_and!; [done..|].
      by intros ok _ [= <-].
    + split_and!; [done..|]. by intros ok [? ?].
  - split_and!; [done..|]. by intros ok _ [= <-].
  - split_and!; [done..|]. by intros ok _ ?.
Qed.
End HandlerFacts.

(** C1, as the code has it.  An answer submission that names an existing
    stop and a run identifier without a Run row leaves the Progress table
    as it was and is never answered "not found" (404); when it is not
    rate-limited, the run identifier is a well-formed uuid and verification
    returns, the reply is 200 with the verdict of the verification. *)
Theorem answer_unknown_run_spec `{R : Runtime} net req w run stop s row :
  runId req = Some run → run ≠ [] → stopId req = Some stop → stop ≠ [] →
  parse_uuid stop = Some s → stops w !! s = Some row →
  (∀ r, parse_uuid run = Some r → runs w !! r = None) →
  let out := post_stops_answer net req w in
  progress out.2 = progress w
  ∧ status out.1 ≠ 404%nat
  ∧ (∀ ok, (throttle net run stop w).1 = false →
           is_Some (parse_uuid run) →
           verifyAnswer (Some (answer_hash row)) (answer req) = Returned ok →
           out.1 = {| status := 200; body := CorrectBody ok |}).
Proof.
  intros Hrun Hr Hstop Hs Hparse Hrow Hnorun out. unfold out.
  rewrite (post_stops_answer_named _ _ _ run stop) //.
  destruct (throttle_frame net run stop w) as (Hst & Hru & Hpr & Hcl).
  destruct (throttle net run stop w) as [limited w1]; simpl in *.
  destruct limited; [by split_and!|].
  destruct (verify_and_record_unknown_run run stop (answer req) w1 s row)
    as (H1 & H2 & H3); [by rewrite ?Hst ?Hru..|].
  split_and!; [congruence | done | ].
  intros ok _. apply H3.
Qed.

Lemma answer_unknown_run_spec_witness :
  let req := {| runId := Some Demo.run_unknown;
                stopId := Some Demo.stop_waag;
                answer := Some (js "wrong") |} in
  progress (@post_stops_answer Reference.runtime Demo.net_up req Demo.world0).2
  = progress Demo.world0.
Proof.
  intros req.
  refine (proj1 (@answer_unknown_run_spec Reference.runtime Demo.net_up req
                   Demo.world0 Demo.run_unknown Demo.stop_waag 161 Demo.waag
                   _ _ _ _ _ _ _)).
  - reflexivity.
  - done.
  - reflexivity.
  - done.
  - reflexivity.
  - reflexivity.
  - intros r [= <-]. reflexivity.
Defined.

(** C1, as the specification words it, fails: the run identifier below
    matches no Run row and the stop exists, yet the reply is 200 with
    [correct: true] and nothing is written. *)
Lemma answer_unknown_run_reports_success :
  let req := {| runId := Some Demo.run_unknown;
                stopId := Some Demo.stop_waag;
                answer := Some (js "De Waag") |} in
  @parse_uuid Reference.runtime Demo.stop_waag = Some 161
  ∧ stops Demo.world0 !! 161 = Some Demo.waag
  ∧ @parse_uuid Reference.runtime Demo.run_unknown = Some 183
  ∧ runs Demo.world0 !! 183 = None
  ∧ @post_stops_answer Reference.runtime Demo.net_up req Demo.world0
    = ({| status := 200; body := CorrectBody true |}, Demo.world0).
Proof. by vm_compute. Qed.

(** ** Redis commands and the rate limit *)

Lemma redis_live_insert (now : Z) (k : list N) (e : RedisEntry)
    (db : gmap (list N) RedisEntry) :
  redis_live now k (<[k := e]> db)
  = match e_expire_at e with
    | Some t => if (t <? now)%Z then None else Some e
    | None => Some e
    end.
Proof. unfold redis_live. by rewrite lookup_insert_eq. Qed.


Lemma redis_live_same_lookup (now : Z) (k : list N)
    (db db' : gmap (list N) RedisEntry) :
  db' !! k = db !! k → redis_live now k db' = redis_live now k db.
Proof. unfold redis_live. by intros ->. Qed.

(** The first attempt of a window creates the counter and starts the
    30 seconds (30000 ms). *)
Lemma rate_limit_fresh (net : Net) (now : Z) (run stop : list N)
    (db : gmap (list N) RedisEntry) :
  incr_up net = true → expire_up net = true →
  redis_live now (rl_key run stop) db = None →
  rate_limit net now run stop db
  = (false,
     <[rl_key run stop := {| e_value := 1;
                             e_expire_at := Some (now + 30000)%Z |}]> db,
     []).
Proof.
  intros Hi He Hdead. unfold rate_limit, redis_incr, redis_expire.
  rewrite Hi He Hdead /= redis_live_insert /=.
  by rewrite insert_insert_eq.
Qed.

(** Later attempts count up and leave the expiry time alone. *)
Lemma rate_limit_live (net : Net) (now : Z) (run stop : list N)
    (db : gmap (list N) RedisEntry) (e : RedisEntry) :
  incr_up net = true →
  redis_live now (rl_key run stop) db = Some e →
  (1 ≤ e_value e < INT64_MAX)%Z →
  rate_limit net now run stop db
  = ((25 <? e_value e + 1)%Z,
     <[rl_key run stop := {| e_value := e_value e + 1;
                             e_expire_at := e_expire_at e |}]> db,
     []).
Proof.
  intros Hi Hlive [Hlo Hhi]. unfold rate_limit, redis_incr.
  rewrite Hi Hlive /=.
  destruct (Z.leb_spec INT64_MAX (e_value e)) as [?|_]; [lia|].
  destruct (Z.eqb_spec (e_value e + 1) 1) as [?|_]; [lia|]. done.
Qed.

(** The rate limit writes no key but its own. *)
Lemma rate_limit_other_key (net : Net) (now : Z) (run stop : list N)
    (db : gmap (list N) RedisEntry) (k : list N) :
  rl_key run stop ≠ k → (rate_limit net now run stop db).1.2 !! k = db !! k.
Proof.
  intros Hk. unfold rate_limit, redis_incr, redis_expire.
  destruct (incr_up net); simpl; [|done].
  destruct (redis_live now (rl_key run stop) db) as [e|]; simpl.
  - destruct (INT64_MAX <=? e_value e)%Z; simpl; [done|].
    destruct (e_value e + 1 =? 1)%Z; simpl.
    + destruct (expire_up net); simpl; [|by rewrite lookup_insert_ne].
      rewrite redis_live_insert /=.
      destruct (e_expire_at e) as [t|]; simpl.
      * destruct (t <? now)%Z; simpl; by rewrite ?lookup_insert_ne.
      * by rewrite !lookup_insert_ne.
    + by rewrite lookup_insert_ne.
  - destruct (expire_up net); simpl; [|by rewrite lookup_insert_ne].
    rewrite redis_live_insert /=. by rewrite !lookup_insert_ne.
Qed.


(** C4, as the code has it.  Without a Redis client, or when [INCR] is
    rejected, the submission is not throttled: the handler goes on to
    verification and replies what verification replies (never 429, and
    nothing of the Redis failure reaches the reply).  A rejected [INCR] is
    logged as a warning by the request.  A missing client is not logged by
    the request, which adds nothing to the log but the error of a failed
    verification; it is logged once, when the module starts. *)
Theorem throttle_fail_open `{R : Runtime} net req w run stop :
  runId req = Some run → run ≠ [] → stopId req = Some stop → stop ≠ [] →
  (redis w = None →
     post_stops_answer net req w = verify_and_record run stop (answer req) w
     ∧ status (post_stops_answer net req w).1 ≠ 429%nat
     ∧ (log (post_stops_answer net req w).2 = log w
        ∨ ∃ e, log (post_stops_answer net req w).2 = log w ++ [LogError e]))
  ∧ (∀ db e,
       redis w = Some db →
       redis_incr (incr_up net) (clock w) (rl_key run stop) db = Thrown e →
       let warned :=
         add_log (LogWarn (js "Rate-limit skip (Redis issue)") (Some e)) w in
       post_stops_answer net req w
       = verify_and_record run stop (answer req) warned
       ∧ (post_stops_answer net req w).1
         = (verify_and_record run stop (answer req) w).1
       ∧ status (post_stops_answer net req w).1 ≠ 429%nat
       ∧ ∃ l, log (post_stops_answer net req w).2
              = log w ++ LogWarn (js "Rate-limit skip (Redis issue)") (Some e)
                         :: l)
  ∧ (∀ server w0,
       redis (connect_redis [] server w0) = None
       ∧ ∃ warning,
           log (connect_redis [] server w0) = log w0 ++ [LogWarn warning None]).
Proof.
  intros Hrun Hr Hstop Hs. split_and!.
  - intros Hnone. rewrite (post_stops_answer_named _ _ _ run stop) //.
    unfold throttle. rewrite Hnone. split_and!; [done| |].
    + destruct (verify_and_record_status run stop (answer req) w)
        as [-> | [-> | ->]]; done.
    + apply verify_and_record_log_error.
  - intros db e Hsome Hincr warned.
    rewrite (post_stops_answer_named _ _ _ run stop) //.
    unfold throttle, rate_limit. rewrite Hsome Hincr /=.
    assert (with_log (log w ++ [LogWarn (js "Rate-limit skip (Redis issue)")
                                  (Some e)])
              (with_redis (Some db) w) = warned) as ->.
    { unfold warned, add_log, with_log, with_redis. simpl. by rewrite Hsome. }
    split_and!; [done| | |].
    + by apply check_answer_frame.
    + destruct (verify_and_record_status run stop (answer req) warned)
        as [-> | [-> | ->]]; done.
    + destruct (verify_and_record_log run stop (answer req) warned)
        as [l ->].
      exists l. by rewrite /warned /= -app_assoc.
  - intros server w0. split; [done|]. by eexists.
Qed.

Lemma throttle_fail_open_witness :
  let req := {| runId := Some Demo.run_1; stopId := Some Demo.stop_waag;
                answer := Some (js "de waag") |} in
  @post_stops_answer Reference.runtime Demo.net_down req Demo.world0
  = @verify_and_record Reference.runtime Demo.run_1 Demo.stop_waag
      (Some (js "de waag")) Demo.world0
  ∧ (@post_stops_answer Reference.runtime Demo.net_down req Demo.world1).1
    = (@verify_and_record Reference.runtime Demo.run_1 Demo.stop_waag
         (Some (js "de waag")) Demo.world1).1.
Proof.
  intros req.
  destruct (@throttle_fail_open Reference.runtime Demo.net_down req
              Demo.world0 Demo.run_1 Demo.stop_waag) as (H0 & _ & _);
    [reflexivity | done | reflexivity | done |].
  destruct (@throttle_fail_open Reference.runtime Demo.net_down req
              Demo.world1 Demo.run_1 Demo.stop_waag) as (_ & H1 & _);
    [reflexivity | done | reflexivity | done |].
  split.
  - apply H0. reflexivity.
  - apply (H1 ∅ RedisError); reflexivity.
Defined.

(** C4, as the specification words it, fails where the store is absent:
    the world below has no Redis client and an empty log, the submission
    goes through to verification, and the log is still empty afterwards. *)
Lemma absent_store_logs_nothing :
  let req := {| runId := Some Demo.run_1; stopId := Some Demo.stop_waag;
                answer := Some (js "de waag") |} in
  redis Demo.world0 = None
  ∧ log Demo.world0 = []
  ∧ (@post_stops_answer Reference.runtime Demo.net_down req Demo.world0).1
    = {| status := 200; body := CorrectBody true |}
  ∧ log (@post_stops_answer Reference.runtime Demo.net_down req
           Demo.world0).2 = [].
Proof. by vm_compute. Qed.

Section HandlerState.
Context {R : Runtime}.

(** Verification leaves Redis and the clock alone. *)
Lemma verify_and_record_redis run stop a w :
  let w' := (verify_and_record run stop a w).2 in
  redis w' = redis w ∧ clock w' = clock w.
Proof.
  unfold verify_and_record, check_answer.
  destruct (select_stop stop (stops w)) as [[row|]|e]; simpl; try done.
  destruct (verifyAnswer (Some (answer_hash row)) a) as [[]|e]; simpl;
    try done.
  by destruct (upsert_solved stop run (clock w) (stops w) (runs w) (progress w)).
Qed.


Lemma post_stops_hint_redis req w :
  let w' := (post_stops_hint req w).2 in
  redis w' = redis w ∧ clock w' = clock w.
Proof.
  unfold post_stops_hint.
  destruct (falsy (runId req) || falsy (stopId req)); [done|].
  destruct (select_stop _ (stops w)) as [[row|]|e]; simpl; try done.
  by destruct (upsert_hint _ _ (stops w) (runs w) (progress w)).
Qed.
End HandlerState.



(** ** A throttle window *)

Lemma elapsed_nonneg evs : (0 ≤ elapsed evs)%Z.
Proof.
  induction evs as [|[d| |] evs IH]; simpl; lia.
Qed.

Lemma elapsed_app evs1 evs2 :
  elapsed (evs1 ++ evs2) = (elapsed evs1 + elapsed evs2)%Z.
Proof.
  induction evs1 as [|[d| |] evs1 IH]; simpl; lia.
Qed.

Lemma served_ids key net req :
  served key (Answer net req) → request_key req = key →
  ∃ run stop, runId req = Some run ∧ run ≠ [] ∧ stopId req = Some stop
              ∧ stop ≠ [] ∧ rl_key run stop = key
              ∧ incr_up net = true ∧ expire_up net = true.
Proof.
  intros Hserved Hkey. destruct (Hserved Hkey) as (Hr & Hs & Hi & He).
  unfold request_key in Hkey.
  destruct (runId req) as [[|c run]|], (stopId req) as [[|c' stop]|];
    try done.
  by eexists _, _.
Qed.

Section Window.
Context {R : Runtime}.

(** A submission for another key leaves the counter of [key] alone. *)
Lemma post_stops_answer_other_key (key : list N) (net : Net)
    (req : AnswerRequest) (w : World) (db : gmap (list N) RedisEntry) :
  request_key req ≠ key → redis w = Some db →
  let w' := (post_stops_answer net req w).2 in
  clock w' = clock w ∧ ∃ db', redis w' = Some db' ∧ db' !! key = db !! key.
Proof.
  intros Hkey Hdb. unfold post_stops_answer.
  destruct (falsy (runId req) || falsy (stopId req)); [by eauto|].
  unfold throttle. rewrite Hdb. fold (request_key req) in Hkey.
  pose proof (rate_limit_other_key net (clock w) (default [] (runId req))
                (default [] (stopId req)) db key Hkey) as Hother.
  destruct (rate_limit _ _ _ _ db) as [[limited db'] l]. simpl in Hother.
  destruct limited; simpl; [by eauto|].
  set (w1 := with_log _ _).
  destruct (verify_and_record_redis (default [] (runId req))
              (default [] (stopId req)) (answer req) w1) as [-> ->].
  by eauto.
Qed.

(** The first submission of a window. *)
Lemma post_stops_answer_fresh (key : list N) (net : Net)
    (req : AnswerRequest) (w : World) (db : gmap (list N) RedisEntry) :
  redis w = Some db → redis_live (clock w) key db = None →
  served key (Answer net req) → request_key req = key →
  let out := post_stops_answer net req w in
  status out.1 ≠ 429%nat
  ∧ clock out.2 = clock w
  ∧ ∃ db', redis out.2 = Some db'
           ∧ db' !! key = Some {| e_value := 1;
                                  e_expire_at := Some (clock w + 30000)%Z |}.
Proof.
  intros Hdb Hdead Hserved Hkey.
  destruct (served_ids key net req Hserved Hkey)
    as (run & stop & Hrun & Hr & Hstop & Hs & <- & Hi & He).
  simpl. rewrite (post_stops_answer_named _ _ _ run stop) //.
  unfold throttle. rewrite Hdb rate_limit_fresh //.
  set (w1 := with_log _ _).
  destruct (verify_and_record_redis run stop (answer req) w1) as [-> ->].
  split_and!.
  - destruct (verify_and_record_status run stop (answer req) w1)
      as [-> | [-> | ->]]; done.
  - done.
  - eexists. split; [done|]. by rewrite lookup_insert_eq.
Qed.

(** A later submission of the window. *)
Lemma post_stops_answer_counted (key : list N) (net : Net)
    (req : AnswerRequest) (w : World) (db : gmap (list N) RedisEntry)
    (j t : Z) :
  redis w = Some db →
  db !! key = Some {| e_value := j; e_expire_at := Some t |} →
  (clock w ≤ t)%Z → (1 ≤ j < INT64_MAX)%Z →
  served key (Answer net req) → request_key req = key →
  let out := post_stops_answer net req w in
  (status out.1 = 429%nat ↔ (25 ≤ j)%Z)
  ∧ clock out.2 = clock w
  ∧ ∃ db', redis out.2 = Some db'
           ∧ db' !! key = Some {| e_value := j + 1;
                                  e_expire_at := Some t |}.
Proof.
  intros Hdb Hentry Ht Hj Hserved Hkey.
  destruct (served_ids key net req Hserved Hkey)
    as (run & stop & Hrun & Hr & Hstop & Hs & <- & Hi & He).
  simpl. rewrite (post_stops_answer_named _ _ _ run stop) //.
  unfold throttle. rewrite Hdb.
  rewrite (rate_limit_live _ _ _ _ _
             {| e_value := j; e_expire_at := Some t |}) //.
  { unfold redis_live. rewrite Hentry /=.
    by destruct (Z.ltb_spec t (clock w)); [lia|]. }
  simpl. destruct (Z.ltb_spec 25 (j + 1)) as [Hlim|Hlim]; simpl.
  - split_and!; [split; [lia|done] | done |].
    eexists. split; [done|]. by rewrite lookup_insert_eq.
  - set (w1 := with_log _ _).
    destruct (verify_and_record_redis run stop (answer req) w1) as [-> ->].
    split_and!.
    + destruct (verify_and_record_status run stop (answer req) w1)
        as [-> | [-> | ->]]; split; (done || lia).
    + done.
    + eexists. split; [done|]. by rewrite lookup_insert_eq.
Qed.
End Window.

Lemma replies_for_cons_answer key net req rep trace :
  replies_for key ((Answer net req, rep) :: trace)
  = if bool_decide (request_key req = key)
    then rep :: replies_for key trace
    else replies_for key trace.
Proof. unfold replies_for. simpl. by case_bool_decide. Qed.

#[local] Arguments replies_for : simpl never.

Section WindowInvariant.
Context {R : Runtime}.

(** While the counter at [key] is alive with value [j], every further
    submission for [key] raises it by one and is limited exactly when the
    count it reaches exceeds 25. *)
Lemma window_invariant (key : list N) (t0 : Z) (evs : list event) :
  ∀ (w : World) (db : gmap (list N) RedisEntry) (j : Z),
    redis w = Some db →
    db !! key = Some {| e_value := j; e_expire_at := Some (t0 + 30000)%Z |} →
    (1 ≤ j)%Z →
    (clock w + elapsed evs ≤ t0 + 30000)%Z →
    (j + Z.of_nat (length evs) < INT64_MAX)%Z →
    Forall (served key) evs →
    let out := run_events evs w in
    clock out.2 = (clock w + elapsed evs)%Z
    ∧ (∃ db', redis out.2 = Some db'
              ∧ db' !! key
                = Some {| e_value :=
                            j + Z.of_nat (length (replies_for key out.1));
                          e_expire_at := Some (t0 + 30000)%Z |})
    ∧ ∀ (i : nat) rep,
        replies_for key out.1 !! i = Some rep →
        (status rep = 429%nat ↔ (25 ≤ j + Z.of_nat i)%Z).
Proof.
  induction evs as [|ev evs IH]; intros w db j Hdb Hentry Hj Ht Hmax Hserved.
  - simpl. split_and!; [lia | | done].
    exists db. split; [done|]. by rewrite Z.add_0_r.
  - apply Forall_cons in Hserved as [Hev Hserved].
    pose proof (elapsed_nonneg evs) as Hpos.
    destruct ev as [d|net req|req]; simpl in Ht, Hmax |- *.
    + destruct (IH (tick (Z.of_N d) w) db j) as (Hc & Hd & Hi);
        simpl; try done; try lia.
      split_and!; [simpl in Hc; lia | done | done].
    + destruct (decide (request_key req = key)) as [Hkey|Hkey].
      * destruct (post_stops_answer_counted key net req w db j (t0 + 30000))
          as (Hst & Hcl & db1 & Hdb1 & Hentry1); try done; try lia.
        destruct (post_stops_answer net req w) as [rep w1]. simpl in *.
        destruct (IH w1 db1 (j + 1)%Z) as (Hc & (db2 & Hdb2 & Hentry2) & Hi);
          try done; try lia.
        destruct (run_events evs w1) as [trace w2]. simpl in *.
        rewrite replies_for_cons_answer bool_decide_eq_true_2 //.
        split_and!.
        -- lia.
        -- exists db2. split; [done|]. rewrite Hentry2 /=.
           do 2 f_equal. lia.
        -- intros [|i] rep' Hrep; simpl in Hrep.
           ++ injection Hrep as <-. rewrite Hst. lia.
           ++ rewrite (Hi i rep' Hrep). lia.
      * destruct (post_stops_answer_other_key key net req w db Hkey Hdb)
          as (Hcl & db1 & Hdb1 & Hentry1).
        destruct (post_stops_answer net req w) as [rep w1]. simpl in *.
        destruct (IH w1 db1 j) as (Hc & Hd & Hi);
          try done; try lia; try congruence.
        destruct (run_events evs w1) as [trace w2]. simpl in *.
        rewrite replies_for_cons_answer bool_decide_eq_false_2 //.
        split_and!; [lia | done | done].
    + destruct (post_stops_hint_redis req w) as [Hre Hcl].
      destruct (post_stops_hint req w) as [rep w1]. simpl in *.
      destruct (IH w1 db j) as (Hc & Hd & Hi);
        try done; try lia; try congruence.
      destruct (run_events evs w1) as [trace w2]. simpl in *.
      split_and!; [lia | done | done].
Qed.
End WindowInvariant.

(** C3. A window opens with a submission for [key] that finds no live
    counter; the events that follow within the next 30 seconds (30000 ms)
    are arbitrary (ticks, hints, submissions for other keys, further
    submissions for [key]).  Then the first 25 submissions for [key] are not
    answered 429 and the 26th and all later ones are; the opening
    submission sets the counter to 1 with an expiry 30 seconds ahead, and
    the later increments leave that expiry where it is; once more than
    30 seconds have passed, a submission for [key] is attempt 1 again: not
    429, counter 1, a new expiry 30 seconds ahead. *)
Theorem throttle_window_spec `{R : Runtime} (w : World)
    (db : gmap (list N) RedisEntry) (key : list N) (net : Net)
    (req : AnswerRequest) (rest : list event) :
  redis w = Some db →
  redis_live (clock w) key db = None →
  request_key req = key →
  Forall (served key) (Answer net req :: rest) →
  (elapsed rest ≤ 30000)%Z →
  (Z.of_nat (length rest) + 1 < INT64_MAX)%Z →
  let out := run_events (Answer net req :: rest) w in
  (∀ (i : nat) rep,
      replies_for key out.1 !! i = Some rep →
      (status rep = 429%nat ↔ (25 ≤ i)%nat))
  ∧ (∃ db1, redis (post_stops_answer net req w).2 = Some db1
            ∧ db1 !! key = Some {| e_value := 1;
                                   e_expire_at := Some (clock w + 30000)%Z |})
  ∧ (∃ db', redis out.2 = Some db'
            ∧ db' !! key
              = Some {| e_value := Z.of_nat (length (replies_for key out.1));
                        e_expire_at := Some (clock w + 30000)%Z |})
  ∧ (∀ (d : N) net' req',
       (30000 < elapsed rest + Z.of_N d)%Z →
       served key (Answer net' req') → request_key req' = key →
       let again := post_stops_answer net' req' (tick (Z.of_N d) out.2) in
       status again.1 ≠ 429%nat
       ∧ ∃ db'', redis again.2 = Some db''
                 ∧ db'' !! key
                   = Some {| e_value := 1;
                             e_expire_at :=
                               Some (clock w + elapsed rest + Z.of_N d + 30000)%Z |}).
Proof.
  intros Hdb Hdead Hkey Hserved Hspan Hmax.
  apply Forall_cons in Hserved as [Hfirst Hserved].
  destruct (post_stops_answer_fresh key net req w db Hdb Hdead Hfirst Hkey)
    as (Hst & Hcl & db1 & Hdb1 & Hentry1).
  simpl. destruct (post_stops_answer net req w) as [rep w1]. simpl in *.
  destruct (window_invariant key (clock w) rest w1 db1 1)
    as (Hc & (db2 & Hdb2 & Hentry2) & Hi); try done; try lia.
  destruct (run_events rest w1) as [trace w2]. simpl in *.
  rewrite replies_for_cons_answer bool_decide_eq_true_2 //.
  split_and!.
  - intros [|i] rep' Hrep; simpl in Hrep.
    + injection Hrep as <-. split; [done | lia].
    + rewrite (Hi i rep' Hrep). lia.
  - by exists db1.
  - exists db2. split; [done|]. rewrite Hentry2 /=. do 2 f_equal. lia.
  - intros d net' req' Hd Hserved' Hkey'.
    destruct (post_stops_answer_fresh key net' req' (tick (Z.of_N d) w2) db2)
      as (Hst' & _ & db3 & Hdb3 & Hentry3); try done.
    { unfold redis_live. rewrite Hentry2 /=.
      destruct (Z.ltb_spec (clock w + 30000) (clock w2 + Z.of_N d));
        [done | lia]. }
    split; [done|]. exists db3. split; [done|].
    rewrite Hentry3 /=. do 3 f_equal. lia.
Qed.

Lemma throttle_window_spec_witness :
  let req := {| runId := Some Demo.run_1; stopId := Some Demo.stop_waag;
                answer := Some (js "lebuinus") |} in
  let evs := [Answer Demo.net_up req; Tick 10000; Answer Demo.net_up req;
              Hint req] in
  ∃ db', redis (@run_events Reference.runtime evs Demo.world1).2 = Some db'
         ∧ db' !! request_key req
           = Some {| e_value :=
                       Z.of_nat (length (replies_for (request_key req)
                          (@run_events Reference.runtime evs Demo.world1).1));
                     e_expire_at := Some (clock Demo.world1 + 30000)%Z |}.
Proof.
  intros req evs.
  refine (proj1 (proj2 (proj2 (@throttle_window_spec Reference.runtime
            Demo.world1 ∅ (request_key req) Demo.net_up req
            [Tick 10000; Answer Demo.net_up req; Hint req] _ _ _ _ _ _)))).
  - reflexivity.
  - reflexivity.
  - reflexivity.
  - repeat constructor.
  - unfold elapsed. simpl. lia.
  - reflexivity.
Defined.

(** ** The server on the seed data *)

(** A correct answer for "De Waag" by the run of team 0xc1 is recorded once;
    a wrong answer half a second later is answered [correct: false] and
    leaves the row as it is. *)
Example answers_at_the_waag :
  let good := {| runId := Some Demo.run_1; stopId := Some Demo.stop_waag;
                 answer := Some (js "De   WAAG ") |} in
  let bad := {| runId := Some Demo.run_1; stopId := Some Demo.stop_waag;
                answer := Some (js "lebuinus") |} in
  let out := @run_events Reference.runtime
               [Answer Demo.net_up good; Tick 500; Answer Demo.net_up bad]
               Demo.world1 in
  out.1.*2 = [ {| status := 200; body := CorrectBody true |};
               {| status := 200; body := CorrectBody false |} ]
  ∧ progress out.2 = [ {| team_id := Some 193; stop_id := 161;
                          solved_at := Some 1000%Z; used_hint := false |} ].
Proof. by vm_compute. Qed.

(** A hint request flags the row and keeps the timestamp of the answer. *)
Example hint_after_answer :
  let good := {| runId := Some Demo.run_1; stopId := Some Demo.stop_waag;
                 answer := Some (js "de waag") |} in
  let out := @run_events Reference.runtime
               [Answer Demo.net_up good; Tick 500; Hint good] Demo.world0 in
  out.1.*2 = [ {| status := 200; body := CorrectBody true |};
               {| status := 200;
                  body := HintBody (Some (js "Kijk naar de gevelsteen."))
                                   (Some 10%Z) |} ]
  ∧ progress out.2 = [ {| team_id := Some 193; stop_id := 161;
                          solved_at := Some 1000%Z; used_hint := true |} ].
Proof. by vm_compute. Qed.

(** * Further properties of the server code *)

(** ** Masking *)

(** X1. [maskValue] keeps the length of a value, shows its first [keep]
    code units only when the value is longer than [keep], and puts a star
    everywhere else; an absent value gives the empty string.  So two values
    of the same length that agree on what is shown are masked alike. *)
Theorem maskValue_spec (s : list N) (keep : option nat) :
  let k := default 2%nat keep in
  let m := maskValue (Some s) keep in
  maskValue None keep = []
  ∧ length m = length s
  ∧ (∀ i, (i < k < length s)%nat → m !! i = s !! i)
  ∧ (∀ i, (i < length s)%nat → (length s ≤ k ∨ k ≤ i)%nat → m !! i = Some 42)
  ∧ (∀ s', length s' = length s →
           ((k < length s)%nat → take k s' = take k s) →
           maskValue (Some s') keep = m).
Proof.
  intros k m.
  assert (Hm : m = if (length s <=? k)%nat then replicate (length s) 42
                   else take k s ++ replicate (length s - k) 42).
  { unfold m, maskValue. fold k. destruct s as [|c r]; [by destruct k|].
    destruct (Nat.leb_spec (length (c :: r)) k); [done|].
    do 2 f_equal. lia. }
  split_and!.
  - done.
  - rewrite Hm. destruct (Nat.leb_spec (length s) k).
    + by rewrite length_replicate.
    + rewrite length_app length_take length_replicate. lia.
  - intros i [Hi Hk]. rewrite Hm.
    destruct (Nat.leb_spec (length s) k); [lia|].
    rewrite lookup_app_l; [rewrite length_take; lia|].
    by rewrite lookup_take_lt.
  - intros i Hi Hor. rewrite Hm.
    destruct (Nat.leb_spec (length s) k).
    + by rewrite lookup_replicate_2.
    + rewrite lookup_app_r; [rewrite length_take; lia|].
      rewrite lookup_replicate_2; [rewrite length_take; lia | done].
  - intros s' Hlen Htake. rewrite Hm.
    unfold maskValue. fold k. destruct s' as [|c r].
    + simpl in Hlen. rewrite -Hlen. by destruct k.
    + rewrite Hlen. destruct (Nat.leb_spec (length s) k); [done|].
      rewrite Htake //. do 2 f_equal. lia.
Qed.

Lemma maskValue_spec_witness :
  maskValue (Some (js "postgres")) None = js "po******"
  ∧ maskValue (Some (js "pg")) None = js "**".
Proof.
  split.
  - symmetry.
    refine (proj2 (proj2 (proj2 (proj2
              (maskValue_spec (js "po******") None)))) (js "postgres") _ _);
      reflexivity.
  - symmetry.
    refine (proj2 (proj2 (proj2 (proj2
              (maskValue_spec (js "**") None)))) (js "pg") _ _).
    + reflexivity.
    + simpl. lia.
Defined.

(** X2. The masked configuration depends on the password through its
    length only: two configurations that differ in nothing but the
    characters of a non-empty password of the same length are logged alike;
    at most 12 stars are printed. *)
Theorem maskDbConfig_hides_password (c c' : DbConfig) (p p' : list N) :
  host c = host c' → port c = port c' → database c = database c' →
  user c = user c' → ssl c = ssl c' →
  password c = Some p → password c' = Some p' →
  p ≠ [] → length p = length p' →
  maskDbConfig c = maskDbConfig c'
  ∧ ∃ stars, (stars ≤ 12)%nat
             ∧ masked_password (maskDbConfig c)
               = replicate stars 42
                 ++ js " (len=" ++ js (pretty (length p)) ++ js ")".
Proof.
  intros Hh Hp Hd Hu Hs Hpw Hpw' Hne Hlen.
  unfold maskDbConfig. rewrite Hh Hp Hd Hu Hs Hpw Hpw'.
  destruct p as [|a p], p' as [|a' p']; try done.
  split.
  - f_equal. by rewrite Hlen.
  - exists (Nat.min 12 (length (a :: p))). split; [lia | done].
Qed.

Lemma maskDbConfig_hides_password_witness :
  let c pw := {| host := Some (js "db"); port := Some 5432%Z;
                 database := Some (js "route1");
                 user := Some (js "postgres");
                 password := Some (js pw); ssl := None |} in
  maskDbConfig (c "eensterkwachtwoord") = maskDbConfig (c "wachtwoordsterk123").
Proof.
  intros c.
  refine (proj1 (maskDbConfig_hides_password (c "eensterkwachtwoord")
                   (c "wachtwoordsterk123") (js "eensterkwachtwoord")
                   (js "wachtwoordsterk123") _ _ _ _ _ _ _ _ _));
    (reflexivity || done).
Defined.

(** ** Normal forms of answers *)

Lemma ascii_lower_range c :
  ascii_lower c = c ∨ (65 ≤ c ≤ 90 ∧ ascii_lower c = c + 32).
Proof.
  unfold ascii_lower.
  destruct (N.leb_spec 65 c), (N.leb_spec c 90); simpl; auto.
Qed.

Lemma isWhiteSpace_upper c : 65 ≤ c ≤ 122 → isWhiteSpace c = false.
Proof.
  intros Hc. unfold isWhiteSpace.
  repeat match goal with
         | |- context [N.leb ?a ?b] => destruct (N.leb_spec a b); try lia
         | |- context [N.eqb ?a ?b] => destruct (N.eqb_spec a b); try lia
         end; try done.
Qed.

Lemma isWhiteSpace_lower c : isWhiteSpace (ascii_lower c) = isWhiteSpace c.
Proof.
  destruct (ascii_lower_range c) as [->|[Hc ->]]; [done|].
  rewrite !isWhiteSpace_upper //; lia.
Qed.

Lemma ascii_lower_idemp c : ascii_lower (ascii_lower c) = ascii_lower c.
Proof.
  destruct (ascii_lower_range c) as [H|[Hc ->]]; [by rewrite !H|].
  unfold ascii_lower.
  destruct (N.leb_spec 65 (c + 32)), (N.leb_spec (c + 32) 90); simpl; lia.
Qed.

Lemma is_ascii_lower s : is_ascii s → is_ascii (ascii_lower <$> s).
Proof.
  intros H. apply Forall_fmap. eapply Forall_impl; [exact H|].
  intros c Hc. simpl in *.
  destruct (ascii_lower_range c) as [->|[? ->]]; lia.
Qed.

Lemma is_ascii_replace_ws b s : is_ascii s → is_ascii (replace_ws_from b s).
Proof.
  intros H. revert b. induction H as [|c r Hc Hr IH]; intros b; simpl.
  - constructor.
  - destruct (isWhiteSpace c); [destruct b|].
    + apply IH.
    + constructor; [lia | apply IH].
    + constructor; [done | apply IH].
Qed.

Lemma replace_ws_lower b t :
  ascii_lower <$> replace_ws_from b t = replace_ws_from b (ascii_lower <$> t).
Proof.
  revert b. induction t as [|c r IH]; intros b; [done|].
  rewrite fmap_cons /= isWhiteSpace_lower.
  destruct (isWhiteSpace c); [destruct b|]; by rewrite ?fmap_cons IH.
Qed.

Lemma replace_ws_true_no_leading t : no_leading_ws (replace_ws_from true t).
Proof.
  induction t as [|c r IH]; simpl; [by intros c|].
  destruct (isWhiteSpace c) eqn:Hc; [done|]. by intros c' [= <-].
Qed.

Lemma replace_ws_true_false t :
  no_leading_ws t → replace_ws_from true t = replace_ws_from false t.
Proof.
  destruct t as [|c r]; [done|]. intros H. simpl. by rewrite (H c).
Qed.

Lemma replace_ws_idemp b t :
  replace_ws_from false (replace_ws_from b t) = replace_ws_from b t.
Proof.
  revert b. induction t as [|c r IH]; intros b; [done|]. simpl.
  destruct (isWhiteSpace c) eqn:Hc; [destruct b|]; simpl.
  - apply IH.
  - f_equal. rewrite replace_ws_true_false; [|apply IH].
    apply replace_ws_true_no_leading.
  - by rewrite Hc IH.
Qed.

Lemma replace_ws_no_leading t :
  no_leading_ws t → no_leading_ws (replace_ws_from false t).
Proof.
  destruct t as [|c r]; [done|]. intros H. simpl. rewrite (H c) //.
Qed.

Lemma replace_ws_last b t c :
  last t = Some c → isWhiteSpace c = false →
  last (replace_ws_from b t) = Some c.
Proof.
  revert b. induction t as [|x r IH]; intros b Hlast Hc; [done|].
  destruct r as [|y r].
  - injection Hlast as ->. simpl. by rewrite Hc.
  - rewrite last_cons_cons in Hlast.
    assert (∀ b', ∃ z l, replace_ws_from b' (y :: r) = z :: l) as Hcons.
    { intros b'. specialize (IH b' Hlast Hc).
      destruct (replace_ws_from b' (y :: r)); [done | by eauto]. }
    change (replace_ws_from b (x :: y :: r))
      with (if isWhiteSpace x
            then (if b then replace_ws_from true (y :: r)
                  else 32 :: replace_ws_from true (y :: r))
            else x :: replace_ws_from false (y :: r)).
    destruct (isWhiteSpace x); [destruct b|].
    + by apply IH.
    + destruct (Hcons true) as (z & l & Hz).
      rewrite Hz last_cons_cons -Hz. by apply IH.
    + destruct (Hcons false) as (z & l & Hz).
      rewrite Hz last_cons_cons -Hz. by apply IH.
Qed.

Lemma replace_ws_no_trailing t :
  no_trailing_ws t → no_trailing_ws (replace_ws_from false t).
Proof.
  intros H. destruct (last t) as [c|] eqn:Hlast.
  - intros c'. rewrite (replace_ws_last false t c) //; [by apply H|].
    intros [= <-]. by apply H.
  - apply last_None in Hlast as ->. by intros c.
Qed.

Lemma trimStart_id t : no_leading_ws t → trimStart t = t.
Proof. destruct t as [|c r]; [done|]. intros H. simpl. by rewrite (H c). Qed.

Lemma trim_id t : no_leading_ws t → no_trailing_ws t → trim t = t.
Proof.
  intros Hl Ht. unfold trim, trimEnd. rewrite (trimStart_id t) //.
  rewrite trimStart_id; [|by rewrite reverse_involutive].
  intros c. rewrite head_reverse. apply Ht.
Qed.

Lemma fmap_lower_no_leading t :
  no_leading_ws t → no_leading_ws (ascii_lower <$> t).
Proof.
  destruct t as [|c r]; [done|]. intros H c' [= <-].
  rewrite isWhiteSpace_lower. by apply H.
Qed.

Lemma fmap_lower_no_trailing t :
  no_trailing_ws t → no_trailing_ws (ascii_lower <$> t).
Proof.
  intros H c'. rewrite fmap_last. destruct (last t) as [c|] eqn:Hc; [|done].
  intros [= <-]. rewrite isWhiteSpace_lower. by apply H.
Qed.

(** X3. On ASCII input the result of [normalizeAnswer] is in normal form:
    it has no whitespace at either end and normalizing it again changes
    nothing. *)
Theorem normalizeAnswer_idempotent `{R : Runtime} (s : option (list N)) :
  lowercases_ascii R → is_ascii (default [] s) →
  no_leading_ws (normalizeAnswer s)
  ∧ no_trailing_ws (normalizeAnswer s)
  ∧ is_ascii (normalizeAnswer s)
  ∧ normalizeAnswer (Some (normalizeAnswer s)) = normalizeAnswer s.
Proof.
  intros HR Hs. rewrite (normalizeAnswer_ascii s HR Hs).
  destruct (trim_trimmed_of (default [] s)) as (l & r & _ & _ & _ & Hl & Ht).
  set (t := ascii_lower <$> trim (default [] s)).
  assert (no_leading_ws t) as Hlt by by apply fmap_lower_no_leading.
  assert (no_trailing_ws t) as Htt by by apply fmap_lower_no_trailing.
  assert (is_ascii (replace_ws t)) as Hau.
  { by apply is_ascii_replace_ws, is_ascii_lower, is_ascii_trim. }
  split_and!.
  - by apply replace_ws_no_leading.
  - by apply replace_ws_no_trailing.
  - done.
  - rewrite (normalizeAnswer_ascii (Some (replace_ws t)) HR Hau) /=.
    rewrite trim_id;
      [by apply replace_ws_no_leading | by apply replace_ws_no_trailing |].
    unfold replace_ws, t. rewrite replace_ws_lower -list_fmap_compose.
    rewrite (list_fmap_ext _ ascii_lower (trim (default [] s)));
      [intros; apply ascii_lower_idemp|].
    apply replace_ws_idemp.
Qed.

Lemma normalizeAnswer_idempotent_witness :
  @normalizeAnswer Reference.runtime
    (Some (@normalizeAnswer Reference.runtime (Some (js "  De   Brink "))))
  = @normalizeAnswer Reference.runtime (Some (js "  De   Brink ")).
Proof.
  refine (proj2 (proj2 (proj2 (@normalizeAnswer_idempotent Reference.runtime
            (Some (js "  De   Brink ")) _ _)))).
  - intros s _. reflexivity.
  - by apply is_ascii_check.
Defined.

(** X4. A [plain:] credential can only be matched when its answer part is
    in normal form: if some ASCII input is accepted, the stored answer
    normalizes to itself, and submitting the stored answer is accepted
    too.  (A stored answer with an upper-case letter, a double space or
    surrounding whitespace is therefore never matched by ASCII input.) *)
Theorem plain_credential_normal_form `{R : Runtime}
    (a : list N) (input : option (list N)) :
  lowercases_ascii R → is_ascii (default [] input) →
  verifyAnswer (Some (js "plain:" ++ a)) input = Returned true →
  normalizeAnswer (Some a) = a
  ∧ verifyAnswer (Some (js "plain:" ++ a)) (Some a) = Returned true.
Proof.
  intros HR Hin. rewrite !verifyAnswer_plain. intros [= Ha].
  apply bool_decide_eq_true_1 in Ha.
  destruct (normalizeAnswer_idempotent input HR Hin) as (_ & _ & _ & Hid).
  rewrite -Ha in Hid. split; [done|].
  f_equal. apply bool_decide_eq_true_2. by rewrite Hid.
Qed.

Lemma plain_credential_normal_form_witness :
  @normalizeAnswer Reference.runtime (Some (js "de brink")) = js "de brink".
Proof.
  refine (proj1 (@plain_credential_normal_form Reference.runtime
                   (js "de brink") (Some (js "de   BRINK")) _ _ _)).
  - intros s _. reflexivity.
  - by apply is_ascii_check.
  - reflexivity.
Defined.

(** ** Credentials and keys at the edges *)

Lemma split_two sep a b :
  sep ∉ a → sep ∉ b → split sep (a ++ [sep] ++ b) = [a; b].
Proof.
  intros Ha Hb. simpl. rewrite split_app_sep; [done|]. by rewrite split_no_sep.
Qed.

(** X5. A credential [scrypt:<salt>] without a digest part makes
    [verifyAnswer] throw for every input, so every submission for such a
    stop that is not rate-limited is answered 500 and records nothing. *)
Theorem scrypt_without_digest `{R : Runtime} (salt : list N)
    net req w run stop s row :
  58 ∉ salt →
  runId req = Some run → run ≠ [] → stopId req = Some stop → stop ≠ [] →
  parse_uuid stop = Some s → stops w !! s = Some row →
  answer_hash row = js "scrypt:" ++ salt →
  (∀ input, ∃ e, verifyAnswer (Some (js "scrypt:" ++ salt)) input = Thrown e)
  ∧ (status (post_stops_answer net req w).1 = 429%nat
     ∨ status (post_stops_answer net req w).1 = 500%nat)
  ∧ progress (post_stops_answer net req w).2 = progress w.
Proof.
  intros Hsalt Hrun Hr Hstop Hs Hparse Hrow Hhash.
  assert (Hthrows : ∀ input,
    ∃ e, verifyAnswer (Some (js "scrypt:" ++ salt)) input = Thrown e).
  { intros input. rewrite verifyAnswer_nonempty; [done|].
    change (js "scrypt:" ++ salt) with (js "scrypt" ++ [58] ++ salt).
    rewrite split_two; [by apply not_elem_check | done |].
    change (startsWith (js "plain:") (js "scrypt" ++ [58] ++ salt)) with false.
    change (startsWith (js "scrypt:") (js "scrypt" ++ [58] ++ salt)) with true.
    simpl. destruct (scrypt (normalizeAnswer input) salt 32); by eexists. }
  split; [done|].
  rewrite (post_stops_answer_named _ _ _ run stop) //.
  destruct (throttle_frame net run stop w) as (Hst & Hru & Hpr & Hcl).
  destruct (throttle net run stop w) as [limited w1]; simpl in *.
  destruct limited; [by auto|].
  unfold verify_and_record, check_answer, select_stop.
  rewrite Hparse Hst Hrow /= Hhash.
  destruct (Hthrows (answer req)) as [e ->]. simpl. by auto.
Qed.

Lemma scrypt_without_digest_witness :
  let w := {| redis := None; stops := {[ 161 := Samples.waag_no_digest ]};
              runs := ∅; progress := []; clock := 0; log := [] |} in
  let req := {| runId := Some Demo.run_1; stopId := Some Demo.stop_waag;
                answer := Some (js "de waag") |} in
  progress (@post_stops_answer Reference.runtime Demo.net_up req w).2
  = progress w.
Proof.
  intros w req.
  refine (proj2 (proj2 (@scrypt_without_digest Reference.runtime (js "NaCl")
            Demo.net_up req w Demo.run_1 Demo.stop_waag 161
            Samples.waag_no_digest _ _ _ _ _ _ _ _))).
  - by apply not_elem_check.
  - reflexivity.
  - done.
  - reflexivity.
  - done.
  - reflexivity.
  - reflexivity.
  - reflexivity.
Defined.

Lemma app_sep_inj (sep : N) (a a' b b' : list N) :
  sep ∉ a → sep ∉ a' → a ++ sep :: b = a' ++ sep :: b' → a = a' ∧ b = b'.
Proof.
  revert a'. induction a as [|x a IH]; intros [|x' a'] Ha Ha' Heq;
    simpl in Heq.
  - by injection Heq as ->.
  - injection Heq as <- _. apply not_elem_of_cons in Ha' as [? _]. done.
  - injection Heq as -> _. apply not_elem_of_cons in Ha as [? _]. done.
  - injection Heq as -> Heq.
    apply not_elem_of_cons in Ha as [_ Ha].
    apply not_elem_of_cons in Ha' as [_ Ha'].
    destruct (IH a' Ha Ha' Heq) as [-> ->]. done.
Qed.

(** X6. Run identifiers without a colon (uuids have none) give every
    (run, stop) pair a counter key of its own; with a colon in the run
    identifier two different pairs can share one key. *)
Theorem rl_key_injective (run stop run' stop' : list N) :
  58 ∉ run → 58 ∉ run' →
  (rl_key run stop = rl_key run' stop' → run = run' ∧ stop = stop')
  ∧ rl_key (run ++ js ":" ++ run') stop = rl_key run (run' ++ js ":" ++ stop).
Proof.
  intros Hr Hr'. split.
  - unfold rl_key. intros Heq. apply app_inv_head in Heq.
    by apply (app_sep_inj 58).
  - unfold rl_key. by rewrite -!app_assoc.
Qed.

Lemma rl_key_injective_witness :
  rl_key (Demo.run_1 ++ js ":" ++ Demo.run_unknown) Demo.stop_waag
  = rl_key Demo.run_1 (Demo.run_unknown ++ js ":" ++ Demo.stop_waag).
Proof.
  refine (proj2 (rl_key_injective Demo.run_1 Demo.stop_waag
                   Demo.run_unknown Demo.stop_waag _ _));
    by apply not_elem_check.
Defined.

(** X7. The counter key is built from the identifiers as they were sent,
    the queries from their uuid values.  A submission whose identifiers are
    spelled differently but parse to the same uuids is verified and
    recorded exactly like the original, yet counted under another key: if
    that key has no live counter it is not rate-limited, whatever the
    counter of the original, and the original's counter is not touched. *)
Theorem respelled_identifiers `{R : Runtime} (net : Net)
    (req req' : AnswerRequest) (w : World) (db : gmap (list N) RedisEntry)
    (run stop run' stop' : list N) :
  runId req = Some run → run ≠ [] → stopId req = Some stop → stop ≠ [] →
  runId req' = Some run' → run' ≠ [] → stopId req' = Some stop' →
  stop' ≠ [] → answer req' = answer req →
  58 ∉ run → 58 ∉ run' → (run', stop') ≠ (run, stop) →
  parse_uuid run' = parse_uuid run → parse_uuid stop' = parse_uuid stop →
  (∀ w0, verify_and_record run' stop' (answer req) w0
         = verify_and_record run stop (answer req) w0)
  ∧ rl_key run' stop' ≠ rl_key run stop
  ∧ (redis w = Some db →
     redis_live (clock w) (rl_key run' stop') db = None →
     incr_up net = true → expire_up net = true →
     (post_stops_answer net req' w).1
     = (verify_and_record run stop (answer req) w).1
     ∧ ∃ db', redis (post_stops_answer net req' w).2 = Some db'
              ∧ db' !! rl_key run stop = db !! rl_key run stop).
Proof.
  intros Hrun Hr Hstop Hs Hrun' Hr' Hstop' Hs' Ha Hc Hc' Hne Hpr Hps.
  assert (Hsame : ∀ w0, verify_and_record run' stop' (answer req) w0
                        = verify_and_record run stop (answer req) w0).
  { intros w0.
    unfold verify_and_record, check_answer, select_stop, upsert_solved,
      select_run.
    by rewrite Hpr Hps. }
  assert (Hkey : rl_key run' stop' ≠ rl_key run stop).
  { intros Heq. destruct (rl_key_injective run' stop' run stop Hc' Hc)
      as [Hinj _].
    destruct (Hinj Heq) as [-> ->]. done. }
  split_and!; [done..|].
  intros Hdb Hdead Hi He.
  rewrite (post_stops_answer_named _ _ _ run' stop') //.
  unfold throttle. rewrite Hdb rate_limit_fresh //. rewrite Ha Hsame.
  set (w1 := with_log _ _).
  destruct (check_answer_frame run stop (answer req) w w1) as [-> _];
    try done.
  split; [done|].
  destruct (verify_and_record_redis run stop (answer req) w1) as [-> _].
  eexists. split; [done|]. by rewrite lookup_insert_ne.
Qed.

Lemma respelled_identifiers_witness :
  @verify_and_record Reference.runtime Demo.run_1 Samples.stop_waag_upper
    (Some (js "de waag")) Demo.world0
  = @verify_and_record Reference.runtime Demo.run_1 Demo.stop_waag
      (Some (js "de waag")) Demo.world0.
Proof.
  refine (proj1 (@respelled_identifiers Reference.runtime Demo.net_up
            {| runId := Some Demo.run_1; stopId := Some Demo.stop_waag;
               answer := Some (js "de waag") |}
            {| runId := Some Demo.run_1;
               stopId := Some Samples.stop_waag_upper;
               answer := Some (js "de waag") |}
            Demo.world1 ∅ Demo.run_1 Demo.stop_waag
            Demo.run_1 Samples.stop_waag_upper
            _ _ _ _ _ _ _ _ _ _ _ _ _ _) Demo.world0);
    try reflexivity; try done; try by apply not_elem_check.
Defined.

(** ** A counter that lost its expiry *)

Section NoExpiry.
Context {R : Runtime}.

(** The opening submission when [EXPIRE] is rejected: the counter stays
    behind without an expiry time. *)
Lemma post_stops_answer_expire_rejected (key : list N) (net : Net)
    (req : AnswerRequest) (w : World) (db : gmap (list N) RedisEntry) :
  redis w = Some db → redis_live (clock w) key db = None →
  request_key req = key →
  falsy (runId req) = false → falsy (stopId req) = false →
  incr_up net = true → expire_up net = false →
  let out := post_stops_answer net req w in
  status out.1 ≠ 429%nat
  ∧ clock out.2 = clock w
  ∧ ∃ db', redis out.2 = Some db'
           ∧ db' !! key = Some {| e_value := 1; e_expire_at := None |}.
Proof.
  intros Hdb Hdead Hkey Hr Hs Hi He. unfold request_key in Hkey.
  destruct (runId req) as [[|c run]|] eqn:Hrun; try done.
  destruct (stopId req) as [[|c' stop]|] eqn:Hstop; try done.
  simpl in Hkey. subst key.
  simpl. rewrite (post_stops_answer_named _ _ _ (c :: run) (c' :: stop)) //.
  unfold throttle, rate_limit, redis_incr, redis_expire.
  rewrite Hdb Hi He Hdead /=.
  set (w1 := with_log _ _).
  destruct (verify_and_record_redis (c :: run) (c' :: stop) (answer req) w1)
    as [-> ->].
  split_and!.
  - destruct (verify_and_record_status (c :: run) (c' :: stop) (answer req) w1)
      as [-> | [-> | ->]]; done.
  - done.
  - eexists. split; [done|]. by rewrite lookup_insert_eq.
Qed.

Lemma post_stops_answer_counted_forever (key : list N) (net : Net)
    (req : AnswerRequest) (w : World) (db : gmap (list N) RedisEntry)
    (j : Z) :
  redis w = Some db →
  db !! key = Some {| e_value := j; e_expire_at := None |} →
  (1 ≤ j < INT64_MAX)%Z →
  served key (Answer net req) → request_key req = key →
  let out := post_stops_answer net req w in
  (status out.1 = 429%nat ↔ (25 ≤ j)%Z)
  ∧ clock out.2 = clock w
  ∧ ∃ db', redis out.2 = Some db'
           ∧ db' !! key = Some {| e_value := j + 1; e_expire_at := None |}.
Proof.
  intros Hdb Hentry Hj Hserved Hkey.
  destruct (served_ids key net req Hserved Hkey)
    as (run & stop & Hrun & Hr & Hstop & Hs & <- & Hi & He).
  simpl. rewrite (post_stops_answer_named _ _ _ run stop) //.
  unfold throttle. rewrite Hdb.
  rewrite (rate_limit_live _ _ _ _ _
             {| e_value := j; e_expire_at := None |}) //.
  { unfold redis_live. by rewrite Hentry. }
  simpl. destruct (Z.ltb_spec 25 (j + 1)) as [Hlim|Hlim]; simpl.
  - split_and!; [split; [lia|done] | done |].
    eexists. split; [done|]. by rewrite lookup_insert_eq.
  - set (w1 := with_log _ _).
    destruct (verify_and_record_redis run stop (answer req) w1) as [-> ->].
    split_and!.
    + destruct (verify_and_record_status run stop (answer req) w1)
        as [-> | [-> | ->]]; split; (done || lia).
    + done.
    + eexists. split; [done|]. by rewrite lookup_insert_eq.
Qed.

(** Without an expiry time the counter only ever goes up, however much
    time passes. *)
Lemma no_expiry_invariant (key : list N) (evs : list event) :
  ∀ (w : World) (db : gmap (list N) RedisEntry) (j : Z),
    redis w = Some db →
    db !! key = Some {| e_value := j; e_expire_at := None |} →
    (1 ≤ j)%Z →
    (j + Z.of_nat (length evs) < INT64_MAX)%Z →
    Forall (served key) evs →
    let out := run_events evs w in
    (∃ db', redis out.2 = Some db'
            ∧ db' !! key
              = Some {| e_value :=
                          j + Z.of_nat (length (replies_for key out.1));
                        e_expire_at := None |})
    ∧ ∀ (i : nat) rep,
        replies_for key out.1 !! i = Some rep →
        (status rep = 429%nat ↔ (25 ≤ j + Z.of_nat i)%Z).
Proof.
  induction evs as [|ev evs IH]; intros w db j Hdb Hentry Hj Hmax Hserved.
  - simpl. split; [|done]. exists db. split; [done|]. by rewrite Z.add_0_r.
  - apply Forall_cons in Hserved as [Hev Hserved].
    destruct ev as [d|net req|req]; simpl in Hmax |- *.
    + destruct (IH (tick (Z.of_N d) w) db j) as (Hd & Hi);
        simpl; try done; try lia.
    + destruct (decide (request_key req = key)) as [Hkey|Hkey].
      * destruct (post_stops_answer_counted_forever key net req w db j)
          as (Hst & Hcl & db1 & Hdb1 & Hentry1); try done; try lia.
        destruct (post_stops_answer net req w) as [rep w1]. simpl in *.
        destruct (IH w1 db1 (j + 1)%Z) as ((db2 & Hdb2 & Hentry2) & Hi);
          try done; try lia.
        destruct (run_events evs w1) as [trace w2]. simpl in *.
        rewrite replies_for_cons_answer bool_decide_eq_true_2 //.
        split.
        -- exists db2. split; [done|]. rewrite Hentry2 /=.
           do 2 f_equal. lia.
        -- intros [|i] rep' Hrep; simpl in Hrep.
           ++ injection Hrep as <-. rewrite Hst. lia.
           ++ rewrite (Hi i rep' Hrep). lia.
      * destruct (post_stops_answer_other_key key net req w db Hkey Hdb)
          as (Hcl & db1 & Hdb1 & Hentry1).
        destruct (post_stops_answer net req w) as [rep w1]. simpl in *.
        destruct (IH w1 db1 j) as (Hd & Hi);
          try done; try lia; try congruence.
        destruct (run_events evs w1) as [trace w2]. simpl in *.
        rewrite replies_for_cons_answer bool_decide_eq_false_2 //.
    + destruct (post_stops_hint_redis req w) as [Hre Hcl].
      destruct (post_stops_hint req w) as [rep w1]. simpl in *.
      destruct (IH w1 db j) as (Hd & Hi);
        try done; try lia; try congruence.
      destruct (run_events evs w1) as [trace w2]. simpl in *. done.
Qed.
End NoExpiry.

(** X8. If [INCR] goes through on the opening submission of a key but
    [EXPIRE] is rejected, the rejection is swallowed and the counter is left
    without an expiry time: from then on it is never reset.  Whatever time
    passes between the later submissions for the key, the first 25 in all
    are not answered 429 and every one after them is. *)
Theorem counter_without_expiry `{R : Runtime} (w : World)
    (db : gmap (list N) RedisEntry) (key : list N) (net : Net)
    (req : AnswerRequest) (rest : list event) :
  redis w = Some db →
  redis_live (clock w) key db = None →
  request_key req = key →
  falsy (runId req) = false → falsy (stopId req) = false →
  incr_up net = true → expire_up net = false →
  Forall (served key) rest →
  (Z.of_nat (length rest) + 1 < INT64_MAX)%Z →
  let out := run_events (Answer net req :: rest) w in
  (∀ (i : nat) rep,
      replies_for key out.1 !! i = Some rep →
      (status rep = 429%nat ↔ (25 ≤ i)%nat))
  ∧ ∃ db', redis out.2 = Some db'
           ∧ db' !! key
             = Some {| e_value := Z.of_nat (length (replies_for key out.1));
                       e_expire_at := None |}.
Proof.
  intros Hdb Hdead Hkey Hr Hs Hi He Hserved Hmax.
  destruct (post_stops_answer_expire_rejected key net req w db)
    as (Hst & Hcl & db1 & Hdb1 & Hentry1); try done.
  simpl. destruct (post_stops_answer net req w) as [rep w1]. simpl in *.
  destruct (no_expiry_invariant key rest w1 db1 1)
    as ((db2 & Hdb2 & Hentry2) & Hidx); try done; try lia.
  destruct (run_events rest w1) as [trace w2]. simpl in *.
  rewrite replies_for_cons_answer bool_decide_eq_true_2 //.
  split.
  - intros [|i] rep' Hrep; simpl in Hrep.
    + injection Hrep as <-. split; [done | lia].
    + rewrite (Hidx i rep' Hrep). lia.
  - exists db2. split; [done|]. rewrite Hentry2 /=. do 2 f_equal. lia.
Qed.

Lemma counter_without_expiry_witness :
  let req := {| runId := Some Demo.run_1; stopId := Some Demo.stop_waag;
                answer := Some (js "lebuinus") |} in
  let evs := [Answer Samples.net_expire_down req; Tick 3600000;
              Answer Demo.net_up req] in
  ∃ db', redis (@run_events Reference.runtime evs Demo.world1).2 = Some db'
         ∧ db' !! request_key req
           = Some {| e_value :=
                       Z.of_nat (length (replies_for (request_key req)
                          (@run_events Reference.runtime evs Demo.world1).1));
                     e_expire_at := None |}.
Proof.
  intros req evs.
  refine (proj2 (@counter_without_expiry Reference.runtime
            Demo.world1 ∅ (request_key req) Samples.net_expire_down req
            [Tick 3600000; Answer Demo.net_up req] _ _ _ _ _ _ _ _ _)).
  - reflexivity.
  - reflexivity.
  - reflexivity.
  - reflexivity.
  - reflexivity.
  - reflexivity.
  - reflexivity.
  - repeat constructor.
  - reflexivity.
Defined.

(** ** What the handlers write *)

Lemma conflicts_same_key cand cand' r :
  team_id cand = team_id cand' → stop_id cand = stop_id cand' →
  conflicts cand r = conflicts cand' r.
Proof. unfold conflicts. by intros -> ->. Qed.

Lemma conflicts_updated cand f r :
  (∀ r, team_id (f r) = team_id r ∧ stop_id (f r) = stop_id r) →
  conflicts cand (f r) = conflicts cand r.
Proof. intros Hf. unfold conflicts. by destruct (Hf r) as [-> ->]. Qed.

Lemma conflicts_self cand t : team_id cand = Some t → conflicts cand cand = true.
Proof. intros H. unfold conflicts. by rewrite H !N.eqb_refl. Qed.

Lemma existsb_updated cand cand' f tbl :
  (∀ r, team_id (f r) = team_id r ∧ stop_id (f r) = stop_id r) →
  existsb (conflicts cand)
    ((λ r, if conflicts cand' r then f r else r) <$> tbl)
  = existsb (conflicts cand) tbl.
Proof.
  intros Hf. induction tbl as [|r tbl IH]; [done|].
  rewrite fmap_cons /= IH. f_equal.
  destruct (conflicts cand' r); [by apply conflicts_updated | done].
Qed.

Lemma update_without_conflict cand f tbl :
  existsb (conflicts cand) tbl = false →
  (λ r, if conflicts cand r then f r else r) <$> tbl = tbl.
Proof.
  induction tbl as [|r tbl IH]; [done|]. intros H. simpl in H.
  apply orb_false_iff in H as [Hr Htbl].
  rewrite fmap_cons Hr. f_equal. by apply IH.
Qed.

Section Writes.
Context {R : Runtime}.

Lemma verify_and_record_writes run stop a w :
  let out := verify_and_record run stop a w in
  stops out.2 = stops w ∧ runs out.2 = runs w
  ∧ (out.1 ≠ {| status := 200; body := CorrectBody true |} →
     progress out.2 = progress w).
Proof.
  unfold verify_and_record, check_answer.
  destruct (select_stop stop (stops w)) as [[row|]|e]; simpl; try done.
  destruct (verifyAnswer (Some (answer_hash row)) a) as [[]|e]; simpl;
    try done.
  by destruct (upsert_solved stop run (clock w) (stops w) (runs w)
                 (progress w)).
Qed.
End Writes.

(** X9. The answer handler never changes the stops, the runs or the clock,
    and it changes the Progress table only together with the reply 200
    [correct: true]: a rejected request (400), an unknown stop (404), a
    throttled attempt (429), a wrong answer (200 [correct: false]) and a
    failure (500) leave Progress as it was.  A request rejected with 400
    changes nothing at all, its counter included. *)
Theorem answer_writes_only_when_correct `{R : Runtime} net req w :
  let out := post_stops_answer net req w in
  stops out.2 = stops w ∧ runs out.2 = runs w ∧ clock out.2 = clock w
  ∧ (out.1 ≠ {| status := 200; body := CorrectBody true |} →
     progress out.2 = progress w)
  ∧ (status out.1 = 400%nat → out.2 = w)
  ∧ (falsy (runId req) = true ∨ falsy (stopId req) = true →
     status out.1 = 400%nat).
Proof.
  unfold post_stops_answer.
  destruct (falsy (runId req) || falsy (stopId req)) eqn:Hfalsy; simpl.
  { by split_and!. }
  apply orb_false_iff in Hfalsy as [Hr Hs].
  set (run := default [] (runId req)). set (stop := default [] (stopId req)).
  destruct (throttle_frame net run stop w) as (Hst & Hru & Hpr & Hcl).
  destruct (throttle net run stop w) as [limited w1]; simpl in *.
  destruct limited; simpl.
  { split_and!; try done. intros [?|?]; congruence. }
  destruct (verify_and_record_writes run stop (answer req) w1)
    as (Hst' & Hru' & Hpr').
  destruct (verify_and_record_redis run stop (answer req) w1) as [_ Hcl'].
  destruct (verify_and_record_status run stop (answer req) w1)
    as [H | [H | H]]; simpl in *.
  all: split_and!; try congruence.
  all: try (intros Hne; rewrite Hpr' //; congruence).
  all: intros [?|?]; congruence.
Qed.

Lemma row_of_other_pair t s t' s' (cand : ProgressRow) :
  team_id cand = Some t → stop_id cand = s → (t', s') ≠ (t, s) →
  row_of t' s' cand = false.
Proof.
  intros Ht Hs Hne. apply not_true_iff_false. intros [Ht' Hs']%row_of_true.
  apply Hne. congruence.
Qed.

(** X10. A correct answer that is not rate-limited, for an existing stop
    and the run of team [t], is answered 200 [correct: true] and recorded:
    afterwards the table still has at most one row per (team, stop), exactly
    one row for (t, stop), stamped with the time of the request and with
    the hint flag the pair had before; the rows of every other pair are the
    same as before. *)
Theorem correct_answer_recorded `{R : Runtime} net req w run stop
    (s r t : N) (row : StopRow) :
  runId req = Some run → run ≠ [] → stopId req = Some stop → stop ≠ [] →
  parse_uuid stop = Some s → stops w !! s = Some row →
  parse_uuid run = Some r → runs w !! r = Some {| run_team_id := Some t |} →
  verifyAnswer (Some (answer_hash row)) (answer req) = Returned true →
  (throttle net run stop w).1 = false →
  unique_team_stop (progress w) →
  let out := post_stops_answer net req w in
  out.1 = {| status := 200; body := CorrectBody true |}
  ∧ unique_team_stop (progress out.2)
  ∧ (∃ row', rows_of t s (progress out.2) = [row']
             ∧ solved_at row' = Some (clock w)
             ∧ used_hint row' = hint_flag t s (progress w))
  ∧ (∀ t' s', (t', s') ≠ (t, s) →
              rows_of t' s' (progress out.2) = rows_of t' s' (progress w)).
Proof.
  intros Hrun Hr Hstop Hs Hps Hrow Hpr Hrunrow Hok Hthr Hu.
  simpl. rewrite (post_stops_answer_named _ _ _ run stop) //.
  destruct (throttle_frame net run stop w) as (Hst & Hru & Hprog & Hcl).
  destruct (throttle net run stop w) as [limited w1]; simpl in *. subst limited.
  unfold verify_and_record, check_answer, select_stop, upsert_solved,
    select_run.
  rewrite Hps Hpr Hst Hru Hprog Hcl Hrow /= Hok /= Hrunrow /=.
  rewrite insert_checked_ok /=; [by rewrite Hrow|].
  set (cand := {| team_id := Some t; stop_id := s;
                  solved_at := Some (clock w); used_hint := false |}).
  split_and!.
  - done.
  - by apply insert_on_conflict_unique.
  - rewrite rows_of_insert; [apply set_solved_at_keys|].
    assert (row_of t s cand = true) as -> by by apply row_of_true.
    unfold hint_flag. specialize (Hu t s).
    destruct (rows_of t s (progress w)) as [|r0 [|r1 l]]; simpl in *;
      [by eexists | by eexists | lia].
  - intros t' s' Hne.
    rewrite rows_of_insert; [apply set_solved_at_keys|].
    by rewrite (row_of_other_pair t s).
Qed.

Lemma correct_answer_recorded_witness :
  let req := {| runId := Some Demo.run_1; stopId := Some Demo.stop_waag;
                answer := Some (js " De  Waag") |} in
  (@post_stops_answer Reference.runtime Demo.net_up req Demo.world1).1
  = {| status := 200; body := CorrectBody true |}.
Proof.
  intros req.
  refine (proj1 (@correct_answer_recorded Reference.runtime Demo.net_up req
            Demo.world1 Demo.run_1 Demo.stop_waag 161 177 193 Demo.waag
            _ _ _ _ _ _ _ _ _ _ _)).
  - reflexivity.
  - done.
  - reflexivity.
  - done.
  - reflexivity.
  - reflexivity.
  - reflexivity.
  - reflexivity.
  - reflexivity.
  - reflexivity.
  - intros t s. simpl. lia.
Defined.

(** ** The hint handler *)






Lemma upserts_commute_rows (t s : N) (now : Z) tbl :
  let solved := {| team_id := Some t; stop_id := s;
                   solved_at := Some now; used_hint := false |} in
  let hinted := {| team_id := Some t; stop_id := s;
                   solved_at := None; used_hint := true |} in
  insert_on_conflict hinted (set_used_hint true)
    (insert_on_conflict solved (set_solved_at (Some now)) tbl)
  = insert_on_conflict solved (set_solved_at (Some now))
      (insert_on_conflict hinted (set_used_hint true) tbl).
Proof.
  intros solved hinted.
  assert (Hsame : ∀ r, conflicts hinted r = conflicts solved r).
  { intros r. by apply conflicts_same_key. }
  assert (Hex : ∀ l, existsb (conflicts hinted) l
                     = existsb (conflicts solved) l).
  { intros l. induction l as [|r l IH]; [done|]. by rewrite /= IH Hsame. }
  unfold insert_on_conflict at 2 4. rewrite Hex.
  destruct (existsb (conflicts solved) tbl) eqn:Hconf.
  - unfold insert_on_conflict.
    rewrite Hex.
    rewrite (existsb_updated solved solved (set_solved_at (Some now)));
      [apply set_solved_at_keys|].
    rewrite (existsb_updated solved hinted (set_used_hint true));
      [apply set_used_hint_keys|].
    rewrite Hconf -!list_fmap_compose.
    apply list_fmap_ext. intros i r _. simpl. rewrite !Hsame.
    destruct (conflicts solved r) eqn:Hr.
    + rewrite (conflicts_updated solved (set_solved_at (Some now)) r);
        [apply set_solved_at_keys|].
      rewrite (conflicts_updated solved (set_used_hint true) r);
        [apply set_used_hint_keys|].
      by rewrite Hr.
    + by rewrite Hr.
  - assert (H1 : conflicts hinted solved = true).
    { rewrite Hsame. by apply (conflicts_self _ t). }
    assert (H2 : conflicts solved hinted = true).
    { rewrite -Hsame. by apply (conflicts_self _ t). }
    unfold insert_on_conflict.
    rewrite !existsb_app /= H1 H2 !orb_true_r.
    rewrite !fmap_app /= H1 H2.
    rewrite (update_without_conflict solved) //.
    rewrite (update_without_conflict hinted) //.
Qed.

(** X13. For the run of a team and an existing stop the two upserts
    commute: recording the answer and then the hint leaves the same table
    as recording the hint and then the answer, and both orders succeed. *)
Theorem upserts_commute `{R : Runtime} (stopId runId : list N) (s r t : N)
    (stops : gmap N StopRow) (runs : gmap N RunRow)
    (tbl : list ProgressRow) (now : Z) :
  parse_uuid stopId = Some s → parse_uuid runId = Some r →
  is_Some (stops !! s) →
  runs !! r = Some {| run_team_id := Some t |} →
  ∃ tbl',
    (tbl1 ← upsert_solved stopId runId now stops runs tbl;
     upsert_hint stopId runId stops runs tbl1) = Returned tbl'
    ∧ (tbl1 ← upsert_hint stopId runId stops runs tbl;
       upsert_solved stopId runId now stops runs tbl1) = Returned tbl'
    ∧ hint_flag t s tbl' = true.
Proof.
  intros Hs Hr Hstop Hrun. unfold upsert_solved, upsert_hint, select_run.
  rewrite Hs Hr /= Hrun /=.
  rewrite !(insert_checked_ok stops _ _ tbl) //.
  cbn [mbind outcome_bind]. rewrite !insert_checked_ok //.
  eexists. split_and!; [done | by rewrite upserts_commute_rows |].
  unfold hint_flag. rewrite rows_of_insert; [apply set_used_hint_keys|].
  replace (row_of t s _) with true by (symmetry; by apply row_of_true).
  set (l := rows_of t s (insert_on_conflict _ _ tbl)).
  destruct l as [|r0 l]; simpl; done.
Qed.

Lemma upserts_commute_witness :
  ∃ tbl',
    (tbl1 ← @upsert_solved Reference.runtime Demo.stop_waag Demo.run_1 1000
              (stops Demo.world0) (runs Demo.world0) [];
     @upsert_hint Reference.runtime Demo.stop_waag Demo.run_1
       (stops Demo.world0) (runs Demo.world0) tbl1) = Returned tbl'
    ∧ hint_flag 193 161 tbl' = true.
Proof.
  destruct (@upserts_commute Reference.runtime Demo.stop_waag Demo.run_1
              161 177 193 (stops Demo.world0) (runs Demo.world0) [] 1000)
    as (tbl' & H1 & _ & H3).
  - reflexivity.
  - reflexivity.
  - by exists Demo.waag.
  - reflexivity.
  - by exists tbl'.
Defined.

(** ** Teams and runs *)

Lemma well_formed_facts (n : nat) :
  ∀ s, (length s ≤ n)%nat →
       length (well_formed s) = length s ∧ (0 ∉ s → 0 ∉ well_formed s).
Proof.
  induction n as [|n IH]; intros s Hn.
  { destruct s; [done | simpl in Hn; lia]. }
  destruct s as [|a r]; [done|]. simpl in Hn.
  assert (Hr : (length r ≤ n)%nat) by lia.
  destruct (IH r Hr) as [Hlen Hnul].
  assert (Hrep : ∀ l, 0 ∉ l → 0 ∉ 65533 :: l).
  { intros l Hl [?|?]%elem_of_cons; done. }
  simpl. destruct (is_high_surrogate a) eqn:Hhigh.
  - destruct r as [|b r'].
    + split; [done|]. intros _. by apply Hrep, not_elem_of_nil.
    + simpl in Hr. destruct (IH r') as [Hlen' Hnul']; [lia|].
      destruct (is_low_surrogate b).
      * split; [by rewrite /= Hlen'|].
        intros Hab. apply not_elem_of_cons in Hab as [Ha Hb].
        apply not_elem_of_cons in Hb as [Hb Hr'].
        apply not_elem_of_cons. split; [done|].
        apply not_elem_of_cons. split; [done|]. by apply Hnul'.
      * split; [by rewrite /= Hlen|].
        intros [_ Hr']%not_elem_of_cons. by apply Hrep, Hnul.
  - destruct (is_low_surrogate a).
    + split; [by rewrite /= Hlen|].
      intros [_ Hr']%not_elem_of_cons. by apply Hrep, Hnul.
    + split; [by rewrite /= Hlen|].
      intros [Ha Hr']%not_elem_of_cons.
      apply not_elem_of_cons. split; [done|]. by apply Hnul.
Qed.

Lemma well_formed_length s : length (well_formed s) = length s.
Proof. by apply (well_formed_facts (length s)). Qed.

Lemma well_formed_no_nul s : 0 ∉ s → 0 ∉ well_formed s.
Proof. by apply (well_formed_facts (length s)). Qed.

Lemma team_taken (id : N) (code : list N) (teams : list TeamRow) :
  existsb (λ t, (team_row_id t =? id)
                || bool_decide (join_code t = code)) teams = true
  ↔ id ∈ team_row_id <$> teams ∨ code ∈ join_code <$> teams.
Proof.
  induction teams as [|t teams IH]; cbn [existsb].
  - split; [done|]. intros [H|H]; by apply elem_of_nil in H.
  - rewrite orb_true_iff IH orb_true_iff N.eqb_eq bool_decide_eq_true.
    rewrite !fmap_cons !elem_of_cons. naive_solver.
Qed.

(** What [insert_team] does, case by case. *)
Lemma insert_team_cases (id : N) (name code : list N) (now : Z)
    (teams : list TeamRow) :
  let row := {| team_row_id := id; team_name := well_formed name;
                join_code := well_formed code; created_at := now |} in
  if bool_decide (0 ∈ name ∨ 0 ∈ code
                  ∨ id ∈ team_row_id <$> teams
                  ∨ well_formed code ∈ join_code <$> teams)
  then insert_team id name code now teams = Thrown PgError
  else insert_team id name code now teams = Returned (row, teams ++ [row]).
Proof.
  intros row. unfold insert_team, pg_text.
  pose proof (team_taken id (well_formed code) teams) as Htaken.
  destruct (decide (0 ∈ name)) as [Hn|Hn].
  { rewrite bool_decide_eq_true_2; [by left|].
    by rewrite (bool_decide_eq_true_2 _ Hn). }
  rewrite (bool_decide_eq_false_2 _ Hn) /=.
  destruct (decide (0 ∈ code)) as [Hc|Hc].
  { rewrite bool_decide_eq_true_2; [by right; left|].
    by rewrite (bool_decide_eq_true_2 _ Hc). }
  rewrite (bool_decide_eq_false_2 _ Hc) /=.
  destruct (existsb _ teams) eqn:Hex.
  - rewrite bool_decide_eq_true_2; [|done].
    right; right. by apply Htaken.
  - rewrite bool_decide_eq_false_2; [|done].
    intros [?|[?|H]]; try done. apply Htaken in H. congruence.
Qed.

Lemma requested_name_length `{Num : JsNumbers} body name :
  requested_name body = Returned name → (length name ≤ 80)%nat.
Proof.
  unfold requested_name.
  destruct (match (if json_truthy body then _ else _) with
            | Some v => _ | None => _ end) as [s|e]; simpl; [|done].
  intros [= <-]. rewrite length_take. lia.
Qed.

Lemma requested_name_absent `{Num : JsNumbers} (body : option json) :
  body ≫= json_get (js "name") = None →
  requested_name body = Returned (js "Team").
Proof.
  intros Hnone. unfold requested_name.
  destruct (json_truthy body); by rewrite ?Hnone.
Qed.

Lemma requested_name_string `{Num : JsNumbers} (body : option json) s :
  body ≫= json_get (js "name") = Some (JStr s) →
  requested_name body
  = Returned (take 80 (if bool_decide (s = []) then js "Team" else s))
  ∧ take 80 (if bool_decide (s = []) then js "Team" else s) ≠ [].
Proof.
  intros Hs. split.
  - unfold requested_name. destruct (json_truthy body) eqn:Hb.
    + rewrite Hs /=. by case_bool_decide.
    + by destruct body as [[]|].
  - case_bool_decide; [done|]. by destruct s.
Qed.

(** X14. [POST /api/teams] either appends exactly one row and replies with
    it, leaving the rest of the world alone, or replies 500 and inserts
    nothing; the latter happens exactly when the conversion of [body.name]
    to a string throws, the name or the join code contains U+0000, or the
    drawn id or join code is already taken.  So join codes and ids stay
    pairwise distinct.  The stored name is the requested name as UTF-8
    carries it, at most 80 code units long; the requested name is ["Team"]
    when no name (or an empty string) is given and a given non-empty string
    cut to 80 code units, which is not empty; a name that is not a string
    can be stored as the empty string, as the empty array is. *)
Theorem team_creation `{Num : JsNumbers} (body : option json)
    (code : list N) (id : N) (teams : list TeamRow) (w : World) :
  NoDup (join_code <$> teams) → NoDup (team_row_id <$> teams) →
  let out := post_teams body code id teams w in
  NoDup (join_code <$> out.1.2) ∧ NoDup (team_row_id <$> out.1.2)
  ∧ (∀ rep, out.1.1 = inr rep → status rep = 500%nat ∧ out.1.2 = teams)
  ∧ (∀ row, out.1.1 = inl row →
       out.1.2 = teams ++ [row] ∧ out.2 = w
       ∧ team_row_id row = id ∧ created_at row = clock w
       ∧ join_code row = well_formed code
       ∧ (length (team_name row) ≤ 80)%nat
       ∧ ∃ name, requested_name body = Returned name
                 ∧ team_name row = well_formed name)
  ∧ ((∃ rep, out.1.1 = inr rep) ↔
       (∃ e, requested_name body = Thrown e)
       ∨ (∃ name, requested_name body = Returned name ∧ 0 ∈ name)
       ∨ 0 ∈ code
       ∨ id ∈ team_row_id <$> teams
       ∨ well_formed code ∈ join_code <$> teams)
  ∧ (body ≫= json_get (js "name") = None →
     requested_name body = Returned (js "Team"))
  ∧ (∀ s, body ≫= json_get (js "name") = Some (JStr s) →
          requested_name body
          = Returned (take 80 (if bool_decide (s = []) then js "Team" else s))
          ∧ take 80 (if bool_decide (s = []) then js "Team" else s) ≠ [])
  ∧ requested_name (Some (JObj [(js "name", JArr [])])) = Returned [].
Proof.
  intros Hcodes Hids.
  pose proof (requested_name_absent body) as Habs.
  pose proof (requested_name_string body) as Hstr.
  unfold post_teams.
  destruct (requested_name body) as [name|e] eqn:Hname; simpl.
  - pose proof (insert_team_cases id name code (clock w) teams) as Hcases.
    simpl in Hcases. case_bool_decide as Hbad; rewrite Hcases; simpl.
    + split_and!; [done | done | | done | | done | done | done].
      * by intros rep [= <-].
      * split; [intros _|by eauto].
        destruct Hbad as [?|[?|[?|?]]]; eauto 10.
    + assert (Hfree_id : id ∉ team_row_id <$> teams) by tauto.
      assert (Hfree_code : well_formed code ∉ join_code <$> teams) by tauto.
      split_and!; [ | | done | | | done | done | done].
      * rewrite fmap_app. apply NoDup_app.
        split_and!; [done| |apply NoDup_singleton].
        by intros x Hx [->|[]%elem_of_nil]%elem_of_cons.
      * rewrite fmap_app. apply NoDup_app.
        split_and!; [done| |apply NoDup_singleton].
        by intros x Hx [->|[]%elem_of_nil]%elem_of_cons.
      * intros row [= <-]. split_and!; try done.
        -- simpl. rewrite well_formed_length.
           by apply (requested_name_length body).
        -- by exists name.
      * split; [by intros [rep ?]|].
        intros [[e ?]|[(name' & Heq & ?)|[?|[?|?]]]]; try done; try tauto.
        injection Heq as <-. tauto.
  - split_and!; [done | done | | done | | done | done | done].
    + by intros rep [= <-].
    + split; by eauto.
Qed.

Lemma team_creation_witness :
  let body := Some (@JObj Samples.integers
                      [(js "name", JStr (js "De Koekbierders"))]) in
  let out := @post_teams Samples.integers body (js "7GH2KQ") 194
               [Samples.team_a] Demo.world0 in
  NoDup (join_code <$> out.1.2) ∧ NoDup (team_row_id <$> out.1.2).
Proof.
  intros body out.
  destruct (@team_creation Samples.integers body (js "7GH2KQ") 194
              [Samples.team_a] Demo.world0) as (H1 & H2 & _).
  - apply NoDup_singleton.
  - apply NoDup_singleton.
  - by split.
Defined.


(** ** Every attempt counts *)


